(** * go-todo-app: the in-memory task store and its HTTP dispatcher

    A shallow embedding of [models/task.go], [handlers/api.go] and the
    routing closures of [main.go], followed by the properties of the store
    and of the dispatcher.

    Every method of [TodoApp] runs its whole body under the store's
    [sync.RWMutex] ([Lock] for the writers, [RLock] for [GetTasks]), so a
    method call is one atomic transition of the store and is modelled as a
    function from the state before the call to the result and the state
    after it. *)

From Stdlib Require Import ZArith String Ascii List Lia Bool.
From stdpp Require Import base option list gmap sets strings.

Local Open Scope Z_scope.

(** ** Go's [int] *)

Module GoInt.

(** [int] is 64 bits wide on the platforms the server is built for
    ([strconv.IntSize]). *)
Definition intSize : Z := 64.
Definition minInt : Z := - 2 ^ (intSize - 1).
Definition maxInt : Z := 2 ^ (intSize - 1) - 1.

Definition in_range (z : Z) : bool := (minInt <=? z) && (z <=? maxInt).

(** Signed arithmetic wraps around silently: the result is the
    representative in [minInt .. maxInt] modulo [2 ^ intSize]. *)
Definition wrap (z : Z) : Z := (z - minInt) mod 2 ^ intSize + minInt.

(** [n++] *)
Definition incr (n : Z) : Z := wrap (n + 1).

End GoInt.

(** ** models/task.go *)

Module Store.

Record Task := mkTask {
  ID : Z;
  Title : string;
  Completed : bool
}.

(** The [mutex] field carries no data; see the header. *)
Record TodoApp := mkTodoApp {
  tasks : list Task;
  nextID : Z
}.

Definition NewTodoApp : TodoApp :=
  {| tasks := []; nextID := 1 |}.

Definition AddTask (app : TodoApp) (title : string) : Task * TodoApp :=
  let task := {| ID := nextID app; Title := title; Completed := false |} in
  (task, {| tasks := tasks app ++ [task]; nextID := GoInt.incr (nextID app) |}).

(** At this level a slice is the list of its elements, and the copy that
    [GetTasks] builds is that list; module [Slices] below keeps the backing
    arrays apart. *)
Definition GetTasks (app : TodoApp) : list Task * TodoApp :=
  (tasks app, app).

(** [for i := range ts { if ts[i].ID == id { ...; return true } }]: the index
    at which the loop body fires, counting from [i]. *)
Fixpoint range_find (id : Z) (ts : list Task) (i : nat) : option nat :=
  match ts with
  | [] => None
  | t :: ts' => if ID t =? id then Some i else range_find id ts' (S i)
  end.

(** [t.Completed = !t.Completed] *)
Definition flip (t : Task) : Task :=
  {| ID := ID t; Title := Title t; Completed := negb (Completed t) |}.

Definition ToggleTask (app : TodoApp) (id : Z) : bool * TodoApp :=
  match range_find id (tasks app) 0 with
  | Some i => (true, {| tasks := alter flip i (tasks app); nextID := nextID app |})
  | None => (false, app)
  end.

(** [append(app.tasks[:i], app.tasks[i+1:]...)] *)
Definition DeleteTask (app : TodoApp) (id : Z) : bool * TodoApp :=
  match range_find id (tasks app) 0 with
  | Some i =>
      (true, {| tasks := take i (tasks app) ++ drop (S i) (tasks app);
                nextID := nextID app |})
  | None => (false, app)
  end.

#[global] Instance Task_eq_dec : EqDecision Task.
Proof. solve_decision. Defined.

(** The number of positions at which two collections differ. *)
Definition changed (l l' : list Task) : nat :=
  length (filter (fun p => p.1 <> p.2) (zip l l')).

(** The IDs of the live tasks, in collection order and as a set. *)
Definition ids (app : TodoApp) : list Z := ID <$> tasks app.
Definition live_ids (app : TodoApp) : gset Z := list_to_set (ids app).

End Store.

Import Store.

(** ** Runs of the store

    The writers, as a client can call them in sequence. [exec] runs a
    sequence of calls; [issued] logs the IDs that the [AddTask] calls of the
    run hand out, in order. *)

Module Runs.

Inductive op :=
| Create (title : string)
| Toggle (id : Z)
| Delete (id : Z).

Definition step (app : TodoApp) (o : op) : TodoApp :=
  match o with
  | Create title => (AddTask app title).2
  | Toggle id => (ToggleTask app id).2
  | Delete id => (DeleteTask app id).2
  end.

Definition issued_by (app : TodoApp) (o : op) : list Z :=
  match o with
  | Create title => [ID (AddTask app title).1]
  | _ => []
  end.

Definition exec (os : list op) (app : TodoApp) : TodoApp := foldl step app os.

Fixpoint issued (os : list op) (app : TodoApp) : list Z :=
  match os with
  | [] => []
  | o :: os' => issued_by app o ++ issued os' (step app o)
  end.

Definition is_create (o : op) : bool :=
  match o with Create _ => true | _ => false end.

(** The number of [AddTask] calls in a run. *)
Definition creates (os : list op) : nat := length (filter is_create os).

Definition is_delete (o : op) : bool :=
  match o with Delete _ => true | _ => false end.

(** The titles a run creates tasks with, in order. *)
Definition created_titles (os : list op) : list string :=
  omap (fun o => match o with Create title => Some title | _ => None end) os.

(** What holds of the store once [n] tasks have been created, whatever was
    toggled or deleted in between. *)
Definition inv (n : Z) (app : TodoApp) : Prop :=
  nextID app = GoInt.wrap (1 + n) /\
  Forall (fun t => 1 <= ID t <= n) (tasks app) /\
  NoDup (ids app).

(** [k] rounds of "create a task, delete it again", for a store whose
    counter stands at [from]. *)
Fixpoint churn (k : nat) (from : Z) : list op :=
  match k with
  | O => []
  | S k' => Create "" :: Delete from :: churn k' (from + 1)
  end.

End Runs.

Import Runs.

(** ** Slices and their backing arrays

    The same four methods with Go's slices made explicit: a slice is a
    header (array, offset, length, capacity) over a backing array in the
    heap, [append] writes in place while the capacity lasts, the element
    writes of [ToggleTask] and the shifting of [DeleteTask] mutate the
    backing array, and [GetTasks] allocates. This is the level at which a
    caller could share storage with the store. *)

Module Slices.

Definition loc := nat.

Record slice := mkSlice {
  arr : loc;
  off : nat;
  len : nat;
  cap : nat
}.

Abbreviation heap := (gmap loc (list Task)).

Record TodoApp := mkTodoApp {
  tasks : slice;
  nextID : Z
}.

(** The store object together with the heap it lives in. *)
Record state := mkState {
  app : TodoApp;
  mem : heap
}.

(** The zero value of [Task]. *)
Definition zero : Task := {| ID := 0; Title := ""; Completed := false |}.

Definition backing (h : heap) (s : slice) : list Task :=
  default [] (h !! arr s).

(** The elements [s[0]], ..., [s[len(s)-1]]. *)
Definition elems (h : heap) (s : slice) : list Task :=
  take (len s) (drop (off s) (backing h s)).

(** [make([]Task, n)] *)
Definition make (h : heap) (n : nat) : slice * heap :=
  let l := fresh (dom h) in
  ({| arr := l; off := 0; len := n; cap := n |}, <[l := replicate n zero]> h).

(** [copy(dst, src)]; the elements of [src] are read before any is
    written. *)
Definition copy (h : heap) (dst src : slice) : heap :=
  let n := min (len dst) (len src) in
  alter (fun a => take (off dst) a ++ take n (elems h src)
                  ++ drop (off dst + n) a) (arr dst) h.

(** [s[:i]] and [s[i:]], for [i <= len(s)]. *)
Definition upto (s : slice) (i : nat) : slice :=
  {| arr := arr s; off := off s; len := i; cap := cap s |}.

Definition from (s : slice) (i : nat) : slice :=
  {| arr := arr s; off := (off s + i)%nat; len := (len s - i)%nat;
     cap := (cap s - i)%nat |}.

(** [s[i] = t], for [i < len(s)]. *)
Definition set_index (h : heap) (s : slice) (i : nat) (t : Task) : heap :=
  alter (fun a => <[(off s + i)%nat := t]> a) (arr s) h.

Section Append.

(** The capacity the runtime picks when [append] must reallocate, from the
    old capacity and the length needed; the language only promises that
    the new array is large enough. *)
Variable growcap : nat -> nat -> nat.

(** [append(s, xs...)] *)
Definition append (h : heap) (s : slice) (xs : list Task) : slice * heap :=
  let n := (len s + length xs)%nat in
  if decide (n <= cap s)%nat then
    ({| arr := arr s; off := off s; len := n; cap := cap s |},
     alter (fun a => take (off s + len s) a ++ xs ++ drop (off s + n) a)
           (arr s) h)
  else
    let c := max n (growcap (cap s) n) in
    let l := fresh (dom h) in
    ({| arr := l; off := 0; len := n; cap := c |},
     <[l := elems h s ++ xs ++ replicate (c - n) zero]> h).

Definition NewTodoApp (h : heap) : state :=
  let '(s, h') := make h 0 in
  {| app := {| tasks := s; nextID := 1 |}; mem := h' |}.

Definition AddTask (st : state) (title : string) : Task * state :=
  let task := {| ID := nextID (app st); Title := title; Completed := false |} in
  let '(s, h') := append (mem st) (tasks (app st)) [task] in
  (task, {| app := {| tasks := s; nextID := GoInt.incr (nextID (app st)) |};
            mem := h' |}).

Definition GetTasks (st : state) : slice * state :=
  let '(tasksCopy, h) := make (mem st) (len (tasks (app st))) in
  (tasksCopy, {| app := app st; mem := copy h tasksCopy (tasks (app st)) |}).

Definition ToggleTask (st : state) (id : Z) : bool * state :=
  match range_find id (elems (mem st) (tasks (app st))) 0 with
  | Some i =>
      (true, {| app := app st;
                mem := alter (alter flip (off (tasks (app st)) + i)%nat)
                             (arr (tasks (app st))) (mem st) |})
  | None => (false, st)
  end.

Definition DeleteTask (st : state) (id : Z) : bool * state :=
  match range_find id (elems (mem st) (tasks (app st))) 0 with
  | Some i =>
      let '(s, h') := append (mem st) (upto (tasks (app st)) i)
                        (elems (mem st) (from (tasks (app st)) (S i))) in
      (true, {| app := {| tasks := s; nextID := nextID (app st) |}; mem := h' |})
  | None => (false, st)
  end.

Definition step (st : state) (o : op) : state :=
  match o with
  | Create title => (AddTask st title).2
  | Toggle id => (ToggleTask st id).2
  | Delete id => (DeleteTask st id).2
  end.

Definition exec (os : list op) (st : state) : state := foldl step st os.

End Append.

(** A growth policy and a small heap to try the methods on. *)
Definition double (old need : nat) : nat := (2 * old)%nat.

Definition example_state : state :=
  exec double [Create "A"; Create "B"; Toggle 1] (NewTodoApp ∅).

(** The store as module [Store] sees it. *)
Definition view (st : state) : Store.TodoApp :=
  {| Store.tasks := elems (mem st) (tasks (app st));
     Store.nextID := nextID (app st) |}.

(** The header [s] points into the allocated array [a], which is at least
    as long as the header says. *)
Definition points_to (h : heap) (s : slice) (a : list Task) : Prop :=
  h !! arr s = Some a /\ (off s + cap s <= length a)%nat /\ (len s <= cap s)%nat.

(** The header of the store's slice points into an allocated array. *)
Definition wf (st : state) : Prop :=
  exists a, points_to (mem st) (tasks (app st)) a.

(** [h'] has every array that [h] has, with the same contents, except
    possibly the one at [l]; it may have new arrays besides. This is what a
    caller can do to the heap through a slice over the array at [l]: write
    its elements, or [append] to it, in place or into a fresh array. *)
Definition only_at (l : loc) (h h' : heap) : Prop :=
  forall l', l' ∈ dom h -> l' <> l -> h' !! l' = h !! l'.

(** The array at [l] is allocated and is not the one the store's slice
    points into. *)
Definition apart (l : loc) (st : state) : Prop :=
  l ∈ dom (mem st) /\ l <> arr (tasks (app st)).

End Slices.

(** ** Strings

    A Go string is a sequence of bytes and [len] counts bytes, as [string]
    and [String.length] do here. A slice expression panics when its bounds
    are out of range; [None] stands for the panic. *)

Module GoString.

Definition len (s : string) : Z := Z.of_nat (String.length s).

(** [s[lo:hi]] *)
Definition slice (s : string) (lo hi : Z) : option string :=
  if (0 <=? lo) && (lo <=? hi) && (hi <=? len s)
  then Some (substring (Z.to_nat lo) (Z.to_nat (hi - lo)) s)
  else None.

(** [s[lo:]] and [s[:hi]] *)
Definition slice_from (s : string) (lo : Z) : option string := slice s lo (len s).
Definition slice_to (s : string) (hi : Z) : option string := slice s 0 hi.

End GoString.

(** ** strconv.Atoi

    The standard library's parser, from its documentation: an optional
    sign, then one or more decimal digits and nothing else; a value
    outside [int] is an error. [None] stands for a non-nil [err]. *)

Module Strconv.

Definition digit (c : ascii) : option Z :=
  let n := Z.of_nat (nat_of_ascii c) in
  if (48 <=? n) && (n <=? 57) then Some (n - 48) else None.

Fixpoint digits (s : string) (acc : Z) : option Z :=
  match s with
  | EmptyString => Some acc
  | String c s' =>
      match digit c with
      | Some d => digits s' (10 * acc + d)
      | None => None
      end
  end.

Definition unsigned (s : string) : option Z :=
  match s with
  | EmptyString => None
  | _ => digits s 0
  end.

Definition Atoi (s : string) : option Z :=
  let v :=
    match s with
    | EmptyString => None
    | String c s' =>
        if (c =? "-")%char then Z.opp <$> unsigned s'
        else if (c =? "+")%char then unsigned s'
        else unsigned s
    end in
  match v with
  | Some n => if GoInt.in_range n then Some n else None
  | None => None
  end.

(** [strconv.Itoa], the decimal rendering with which a client writes an
    ID into a path: the digits of [n], last digit first onto [acc]. Twenty
    rounds cover every [int]. *)
Definition digit_char (d : Z) : ascii := ascii_of_nat (48 + Z.to_nat d).

Fixpoint render (fuel : nat) (n : Z) (acc : string) : string :=
  match fuel with
  | O => acc
  | S fuel' =>
      let acc' := String (digit_char (n mod 10)) acc in
      if n <? 10 then acc' else render fuel' (n / 10) acc'
  end.

Definition Itoa (z : Z) : string :=
  if z <? 0 then String "-" (render 20 (- z) "") else render 20 z "".

End Strconv.

(** ** handlers/api.go and the routes of main.go *)

Module Http.

Record Request := mkRequest {
  Method : string;
  Path : string;
  Body : string
}.

Definition MethodGet : string := "GET".
Definition MethodPost : string := "POST".
Definition MethodPut : string := "PUT".
Definition MethodDelete : string := "DELETE".

Definition StatusBadRequest : Z := 400.
Definition StatusMethodNotAllowed : Z := 405.

(** What a handler writes: [http.Error], or one of the three JSON bodies
    with status 200, or a file from [static/]. *)
Inductive Response :=
| Error (msg : string) (code : Z)
| JsonTasks (ts : list Task)
| JsonCreated (task : Task)
| JsonSuccess (success : bool)
| StaticFile.

(** The two handlers that the subtree closure chooses between. *)
Inductive handler := toggle_handler | delete_handler.

(** A handler either returns, having written a response and left the
    store in some state, or panics. *)
Inductive outcome :=
| Done (resp : Response) (app : TodoApp)
| Panic.

Notation "'let!' x ':=' e 'in' k" :=
  (match e with Some x => k | None => Panic end)
  (at level 10, x name, e at level 100, k at level 200, only parsing).

Section Handlers.

(** [json.NewDecoder(r.Body).Decode(&req)] followed by [req.Title]: [None]
    for a decoding error, otherwise the title, which is empty when the
    body has no such field. *)
Variable decodeTitle : string -> option string.

Definition GetTasksHandler (todoApp : TodoApp) (r : Request) : outcome :=
  if negb (Method r =? MethodGet)%string then
    Done (Error "Method not allowed" StatusMethodNotAllowed) todoApp
  else
    let '(tasks, todoApp) := GetTasks todoApp in
    Done (JsonTasks tasks) todoApp.

Definition AddTaskHandler (todoApp : TodoApp) (r : Request) : outcome :=
  if negb (Method r =? MethodPost)%string then
    Done (Error "Method not allowed" StatusMethodNotAllowed) todoApp
  else
    match decodeTitle (Body r) with
    | None => Done (Error "Invalid JSON" StatusBadRequest) todoApp
    | Some title =>
        if (title =? "")%string then
          Done (Error "Title is required" StatusBadRequest) todoApp
        else
          let '(task, todoApp) := AddTask todoApp title in
          Done (JsonCreated task) todoApp
    end.

Definition ToggleTaskHandler (todoApp : TodoApp) (r : Request) : outcome :=
  if negb (Method r =? MethodPut)%string then
    Done (Error "Method not allowed" StatusMethodNotAllowed) todoApp
  else
    let! idStr := GoString.slice_from (Path r) (GoString.len "/api/tasks/") in
    let! idStr := GoString.slice_to idStr
                    (GoString.len idStr - GoString.len "/toggle") in
    match Strconv.Atoi idStr with
    | None => Done (Error "Invalid task ID" StatusBadRequest) todoApp
    | Some id =>
        let '(success, todoApp) := ToggleTask todoApp id in
        Done (JsonSuccess success) todoApp
    end.

Definition DeleteTaskHandler (todoApp : TodoApp) (r : Request) : outcome :=
  if negb (Method r =? MethodDelete)%string then
    Done (Error "Method not allowed" StatusMethodNotAllowed) todoApp
  else
    let! idStr := GoString.slice_from (Path r) (GoString.len "/api/tasks/") in
    match Strconv.Atoi idStr with
    | None => Done (Error "Invalid task ID" StatusBadRequest) todoApp
    | Some id =>
        let '(success, todoApp) := DeleteTask todoApp id in
        Done (JsonSuccess success) todoApp
    end.

(** The closure registered for ["/api/tasks"]. *)
Definition api_tasks (todoApp : TodoApp) (r : Request) : outcome :=
  if (Method r =? MethodGet)%string then GetTasksHandler todoApp r
  else if (Method r =? MethodPost)%string then AddTaskHandler todoApp r
  else Done (Error "Method not allowed" StatusMethodNotAllowed) todoApp.

(** The closure registered for ["/api/tasks/"]: first the choice it makes
    from [r.URL.Path[len(r.URL.Path)-7:] == "/toggle"], then the call. *)
Definition choose (r : Request) : option handler :=
  match GoString.slice_from (Path r) (GoString.len (Path r) - 7) with
  | Some suffix =>
      Some (if (suffix =? "/toggle")%string then toggle_handler
            else delete_handler)
  | None => None
  end.

Definition api_tasks_subtree (todoApp : TodoApp) (r : Request) : outcome :=
  let! h := choose r in
  match h with
  | toggle_handler => ToggleTaskHandler todoApp r
  | delete_handler => DeleteTaskHandler todoApp r
  end.

(** [http.DefaultServeMux] with the four patterns of [main], for a request
    whose path is in canonical form (the mux answers any other with a
    redirect and calls no handler): the exact path ["/api/tasks"], the
    subtree ["/api/tasks/"], and the file routes ["/static/"] and ["/"],
    which do not touch the store. *)
Definition serve (todoApp : TodoApp) (r : Request) : outcome :=
  if (Path r =? "/api/tasks")%string then api_tasks todoApp r
  else if String.prefix "/api/tasks/" (Path r) then api_tasks_subtree todoApp r
  else Done StaticFile todoApp.

End Handlers.

(** The path ends with the seven characters [/toggle]. *)
Definition ends_with_toggle (path : string) : Prop :=
  exists p, path = (p ++ "/toggle")%string.

End Http.

(** ** The server *)

Module Server.

(** [http.ListenAndServe(":"+port, nil)], seen from the store. Every request
    is handed to the mux. A handler makes at most one call into the store,
    under the store's mutex, and nothing else it does depends on other
    requests, so the store sees the calls of the requests one after the
    other, in some order: the order of the list. A handler that panics is
    recovered by [net/http]; the panics of these handlers come before their
    call into the store. *)
Definition after (app : TodoApp) (o : Http.outcome) : TodoApp :=
  match o with
  | Http.Done _ app' => app'
  | Http.Panic => app
  end.

Definition ListenAndServe (decodeTitle : string -> option string)
    (rs : list Http.Request) (app : TodoApp) : TodoApp :=
  foldl (fun a r => after a (Http.serve decodeTitle a r)) app rs.

(** A create with a non-empty title, or any toggle or delete. *)
Definition validated (o : op) : Prop :=
  match o with
  | Create title => title <> ""
  | _ => True
  end.

End Server.

(** ** Notions used in the statements *)

(** [ToggleTask]'s loop body, applied to one task. *)
Definition toggle_where (id : Z) (t : Task) : Task :=
  if decide (ID t = id) then flip t else t.

(** A response that reports no write to the store. *)
Definition reports_no_write (resp : Http.Response) : Prop :=
  (forall t, resp <> Http.JsonCreated t) /\ resp <> Http.JsonSuccess true.

(** * Properties *)

(** ** Scenarios of the test suite *)

Example scenario_create :
  AddTask NewTodoApp "Buy milk"
  = ({| ID := 1; Title := "Buy milk"; Completed := false |},
     {| tasks := [{| ID := 1; Title := "Buy milk"; Completed := false |}];
        nextID := 2 |}).
Proof. reflexivity. Qed.

Example scenario_toggle_unknown :
  ToggleTask (AddTask NewTodoApp "A").2 999 = (false, (AddTask NewTodoApp "A").2).
Proof. reflexivity. Qed.

Example scenario_delete_middle :
  let app3 := (AddTask (AddTask (AddTask NewTodoApp "1").2 "2").2 "3").2 in
  (DeleteTask app3 2).1 = true /\ ids (DeleteTask app3 2).2 = [1; 3].
Proof. split; reflexivity. Qed.

(** ** Arithmetic on [int] *)

Lemma minInt_eq : GoInt.minInt = -9223372036854775808.
Proof. reflexivity. Qed.

Lemma maxInt_eq : GoInt.maxInt = 9223372036854775807.
Proof. reflexivity. Qed.

Lemma wrap_in_range (n : Z) : GoInt.minInt <= n <= GoInt.maxInt -> GoInt.wrap n = n.
Proof.
  unfold GoInt.wrap. rewrite minInt_eq, maxInt_eq. intros H.
  change (2 ^ GoInt.intSize) with 18446744073709551616.
  rewrite Z.mod_small; lia.
Qed.

Lemma incr_below_max (n : Z) :
  GoInt.minInt <= n < GoInt.maxInt -> GoInt.incr n = n + 1.
Proof.
  intros H. unfold GoInt.incr. apply wrap_in_range.
  rewrite minInt_eq, maxInt_eq in *. lia.
Qed.

Lemma incr_at_max : GoInt.incr GoInt.maxInt = GoInt.minInt.
Proof. reflexivity. Qed.

(** ** The scan *)

Section Scan.

Implicit Types (ts : list Task) (id : Z) (i k : nat).

Lemma range_find_Some id ts k i :
  range_find id ts k = Some i ->
  exists l1 t l2,
    ts = l1 ++ t :: l2 /\ i = (k + length l1)%nat /\ ID t = id /\
    Forall (fun u => ID u <> id) l1.
Proof.
  revert k. induction ts as [|t ts IH]; intros k; simpl; [discriminate|].
  destruct (Z.eqb_spec (ID t) id) as [He|Hne].
  - intros [= <-]. exists [], t, ts. simpl. repeat split; auto with lia.
  - intros Hf. destruct (IH _ Hf) as (l1 & u & l2 & -> & -> & Hu & Hl1).
    exists (t :: l1), u, l2. simpl. repeat split; auto with lia.
Qed.

Lemma range_find_None id ts k :
  range_find id ts k = None <-> id ∉ ID <$> ts.
Proof.
  revert k. induction ts as [|t ts IH]; intros k; simpl.
  - split; [intros _; apply not_elem_of_nil | done].
  - rewrite not_elem_of_cons. destruct (Z.eqb_spec (ID t) id) as [He|Hne].
    + split; [discriminate | intros [Hd _]; congruence].
    + rewrite IH. split; [intros H; split; [congruence | done] | tauto].
Qed.

Lemma range_find_is_Some id ts k :
  is_Some (range_find id ts k) <-> id ∈ ID <$> ts.
Proof.
  rewrite <- not_eq_None_Some, range_find_None.
  split; [apply dec_stable | auto].
Qed.

(** The scan stops at the first match. *)
Lemma range_find_app id l1 t l2 k :
  Forall (fun u => ID u <> id) l1 -> ID t = id ->
  range_find id (l1 ++ t :: l2) k = Some (k + length l1)%nat.
Proof.
  intros Hl1 Ht. revert k.
  induction Hl1 as [|u l1 Hu _ IH]; intros k; simpl.
  - apply Z.eqb_eq in Ht. rewrite Ht. f_equal. lia.
  - apply Z.eqb_neq in Hu. rewrite Hu, IH. f_equal. lia.
Qed.

End Scan.

(** ** Collections of tasks *)

Section StoreCalls.

Implicit Types (app : TodoApp) (id : Z) (t : Task).

Lemma flip_flip t : flip (flip t) = t.
Proof. destruct t as [i ti c]. unfold flip. simpl. by rewrite negb_involutive. Qed.

Lemma flip_ne t : flip t <> t.
Proof. destruct t as [i ti []]; discriminate. Qed.

Lemma flip_ID t : ID (flip t) = ID t.
Proof. done. Qed.

(** Where the scan finds [id], the collection splits around the first task
    that carries it. *)
Lemma found_split app id :
  id ∈ ids app ->
  exists l1 t l2,
    tasks app = l1 ++ t :: l2 /\ ID t = id /\
    Forall (fun u => ID u <> id) l1 /\
    range_find id (tasks app) 0 = Some (length l1).
Proof.
  intros Hin. apply (range_find_is_Some id (tasks app) 0) in Hin as [i Hi].
  destruct (range_find_Some _ _ _ _ Hi) as (l1 & t & l2 & Hts & -> & Ht & Hl1).
  exists l1, t, l2. by rewrite Hi.
Qed.

Lemma alter_middle (f : Task -> Task) (l1 l2 : list Task) t :
  alter f (length l1) (l1 ++ t :: l2) = l1 ++ f t :: l2.
Proof.
  replace (length l1) with (length l1 + 0)%nat by lia. by rewrite alter_app_r.
Qed.

Lemma changed_refl (l : list Task) : changed l l = 0%nat.
Proof.
  unfold changed. induction l as [|t l IH]; [done|]. simpl.
  rewrite filter_cons_False; [done | simpl; auto].
Qed.

Lemma changed_app (l1 l1' l2 l2' : list Task) :
  length l1 = length l1' ->
  changed (l1 ++ l2) (l1' ++ l2') = (changed l1 l1' + changed l2 l2')%nat.
Proof.
  intros Hlen. unfold changed.
  rewrite zip_with_app by done. by rewrite filter_app, length_app.
Qed.

Lemma changed_flip (l1 l2 : list Task) t :
  changed (l1 ++ t :: l2) (l1 ++ flip t :: l2) = 1%nat.
Proof.
  rewrite changed_app by done. rewrite changed_refl.
  change (t :: l2) with ([t] ++ l2). change (flip t :: l2) with ([flip t] ++ l2).
  rewrite changed_app by done. rewrite changed_refl.
  unfold changed. simpl. rewrite filter_cons_True; [done|].
  simpl. intros E. by apply (flip_ne t).
Qed.

(** An ID that no task carries is not found. *)
Lemma DeleteTask_absent app id : id ∉ ids app -> DeleteTask app id = (false, app).
Proof.
  intros Hnin. unfold DeleteTask.
  by apply (range_find_None id (tasks app) 0) in Hnin as ->.
Qed.

Lemma ToggleTask_absent app id : id ∉ ids app -> ToggleTask app id = (false, app).
Proof.
  intros Hnin. unfold ToggleTask.
  by apply (range_find_None id (tasks app) 0) in Hnin as ->.
Qed.

End StoreCalls.

(** ** Slices: the backing arrays behave like the lists of [Store] *)

Section SliceLemmas.

Import Slices.

Implicit Types (h : heap) (s : slice) (a xs : list Task) (st : state).

Lemma backing_lookup h s a : h !! arr s = Some a -> backing h s = a.
Proof. intros Ha. unfold backing. by rewrite Ha. Qed.

Lemma elems_points_to h s a :
  points_to h s a -> elems h s = take (len s) (drop (off s) a).
Proof. intros (Ha & _). unfold elems. by rewrite (backing_lookup _ _ _ Ha). Qed.

Lemma length_elems h s a : points_to h s a -> length (elems h s) = len s.
Proof.
  intros Hp. rewrite (elems_points_to _ _ _ Hp). destruct Hp as (_ & Hc & Hl).
  rewrite length_take, length_drop. lia.
Qed.

(** [s[:i]] and [s[i:]] as lists. *)
Lemma elems_upto h s a i :
  points_to h s a -> (i <= len s)%nat -> elems h (upto s i) = take i (elems h s).
Proof.
  intros Hp Hi. destruct Hp as (Ha & _).
  unfold elems. rewrite (backing_lookup _ (upto s i) a), (backing_lookup _ s a) by done.
  cbn [upto arr off len]. rewrite take_take. f_equal. lia.
Qed.

Lemma elems_from h s a i :
  points_to h s a -> (i <= len s)%nat -> elems h (from s i) = drop i (elems h s).
Proof.
  intros Hp Hi. destruct Hp as (Ha & _).
  unfold elems. rewrite (backing_lookup _ (from s i) a), (backing_lookup _ s a) by done.
  cbn [from arr off len]. rewrite !take_drop_commute, drop_drop. do 2 f_equal. lia.
Qed.

Section WithGrowcap.

Variable growcap : nat -> nat -> nat.

(** [append] yields the old elements followed by the new ones, in a slice
    that again points into an allocated array, and touches no array but,
    when there is room, the one it appends to. *)
Lemma append_spec h s xs a :
  points_to h s a ->
  let r := append growcap h s xs in
  elems r.2 r.1 = elems h s ++ xs /\
  (exists a', points_to r.2 r.1 a') /\
  only_at (arr s) h r.2 /\
  (arr r.1 = arr s \/ arr r.1 ∉ dom h).
Proof.
  intros Hp. pose proof (length_elems _ _ _ Hp) as HE.
  pose proof (elems_points_to _ _ _ Hp) as HEa.
  destruct Hp as (Ha & Hc & Hl). unfold append.
  destruct (decide (len s + length xs <= cap s)%nat) as [Hfit|Hfull]; cbn [fst snd].
  - set (a' := take (off s + len s) a ++ xs ++ drop (off s + (len s + length xs)) a).
    assert (Ha' : alter (fun _ => a') (arr s) h !! arr s = Some a').
    { by rewrite lookup_alter_eq, Ha. }
    assert (Hh : alter (fun a => take (off s + len s) a ++ xs
                                 ++ drop (off s + (len s + length xs)) a) (arr s) h
                 = alter (fun _ => a') (arr s) h).
    { apply map_eq. intros l. destruct (decide (l = arr s)) as [->|Hne].
      - by rewrite !lookup_alter_eq, Ha.
      - by rewrite !lookup_alter_ne. }
    rewrite Hh. split; [|split; [|split]]; [| | |by left].
    + unfold elems at 1. rewrite (backing_lookup _ _ a') by done.
      cbn [arr off len]. unfold a'. rewrite drop_app_le by (rewrite length_take; lia).
      rewrite <- take_drop_commute, <- HEa.
      rewrite take_app_add' by done. by rewrite take_app_length.
    + exists a'. repeat split; cbn [arr off len cap]; [done | | lia].
      unfold a'. rewrite !length_app, length_take, length_drop. lia.
    + intros l _ Hne. by rewrite lookup_alter_ne.
  - set (n := (len s + length xs)%nat).
    set (c := max n (growcap (cap s) n)).
    set (a' := elems h s ++ xs ++ replicate (c - n) zero).
    split; [|split; [|split]]; [| | |right; apply is_fresh].
    + unfold elems at 1.
      rewrite (backing_lookup _ _ a') by (cbn [arr]; apply lookup_insert_eq).
      cbn [arr off len]. rewrite drop_0. unfold a', n.
      rewrite take_app_add' by done. by rewrite take_app_length.
    + exists a'. repeat split; cbn [arr off len cap]; [apply lookup_insert_eq | | lia].
      unfold a'. rewrite !length_app, length_replicate, HE. lia.
    + intros l Hl' _. rewrite lookup_insert_ne; [done|].
      intros <-. by apply (is_fresh (dom h)).
Qed.

Lemma only_at_set_index h s i t : only_at (arr s) h (set_index h s i t).
Proof. intros l _ Hne. unfold set_index. by rewrite lookup_alter_ne. Qed.

Lemma points_to_only_at h h' s a l :
  points_to h s a -> only_at l h h' -> arr s <> l -> points_to h' s a.
Proof.
  intros (Ha & Hc) Ho Hne. split; [|done].
  rewrite Ho; [done | by apply elem_of_dom | done].
Qed.

Lemma elems_only_at h h' s a l :
  points_to h s a -> only_at l h h' -> arr s <> l -> elems h' s = elems h s.
Proof.
  intros Hp Ho Hne.
  rewrite (elems_points_to _ _ _ Hp).
  by rewrite (elems_points_to _ _ _ (points_to_only_at _ _ _ _ _ Hp Ho Hne)).
Qed.

(** *** Each method refines its counterpart in [Store] *)

Lemma sim_NewTodoApp h : view (NewTodoApp h) = Store.NewTodoApp /\ wf (NewTodoApp h).
Proof.
  split; [done|]. exists []. split; [apply lookup_insert_eq | done].
Qed.

Lemma sim_AddTask st title :
  wf st ->
  (AddTask growcap st title).1 = (Store.AddTask (view st) title).1 /\
  view (AddTask growcap st title).2 = (Store.AddTask (view st) title).2 /\
  wf (AddTask growcap st title).2.
Proof.
  intros [a Hp]. unfold AddTask.
  destruct (append_spec (mem st) (tasks (app st))
              [{| ID := nextID (app st); Title := title; Completed := false |}] a Hp)
    as (He & Hp' & _ & _).
  destruct (append growcap _ _ _) as [s' h']. cbn [fst snd] in *.
  split; [done|]. split; [|exact Hp'].
  unfold view. cbn [app mem tasks nextID Store.AddTask snd Store.tasks Store.nextID].
  by rewrite He.
Qed.

Lemma found_in_range st id i a :
  points_to (mem st) (tasks (app st)) a ->
  range_find id (elems (mem st) (tasks (app st))) 0 = Some i ->
  (i < len (tasks (app st)))%nat.
Proof.
  intros Hp Hf. apply range_find_Some in Hf as (l1 & t & l2 & He & -> & _).
  rewrite <- (length_elems _ _ _ Hp), He, length_app. simpl. lia.
Qed.

Lemma sim_ToggleTask st id :
  wf st ->
  (ToggleTask st id).1 = (Store.ToggleTask (view st) id).1 /\
  view (ToggleTask st id).2 = (Store.ToggleTask (view st) id).2 /\
  wf (ToggleTask st id).2.
Proof.
  intros [a Hp]. unfold ToggleTask, Store.ToggleTask. cbn [view Store.tasks Store.nextID].
  destruct (range_find id _ 0) as [i|] eqn:Hf; cbn [fst snd];
    [|split; [done|]; split; [done|]; by exists a].
  pose proof (found_in_range _ _ _ _ Hp Hf) as Hi.
  pose proof (elems_points_to _ _ _ Hp) as He. destruct Hp as (Ha & Hc & Hl).
  set (s := tasks (app st)) in *.
  assert (Ha' : alter (alter flip (off s + i)%nat) (arr s) (mem st) !! arr s
                = Some (alter flip (off s + i)%nat a)).
  { by rewrite lookup_alter_eq, Ha. }
  split; [done|]. split.
  - unfold view. cbn [app mem]. fold s. f_equal.
    unfold elems at 1. rewrite (backing_lookup _ _ _ Ha'), He.
    rewrite drop_alter_ge by lia. rewrite take_alter_lt by lia.
    do 2 f_equal. lia.
  - exists (alter flip (off s + i)%nat a). repeat split; cbn [app mem]; fold s; [done | | done].
    by rewrite length_alter.
Qed.

Lemma sim_DeleteTask st id :
  wf st ->
  (DeleteTask growcap st id).1 = (Store.DeleteTask (view st) id).1 /\
  view (DeleteTask growcap st id).2 = (Store.DeleteTask (view st) id).2 /\
  wf (DeleteTask growcap st id).2.
Proof.
  intros [a Hp]. unfold DeleteTask, Store.DeleteTask. cbn [view Store.tasks Store.nextID].
  destruct (range_find id _ 0) as [i|] eqn:Hf; cbn [fst snd];
    [|split; [done|]; split; [done|]; by exists a].
  pose proof (found_in_range _ _ _ _ Hp Hf) as Hi.
  set (s := tasks (app st)) in *.
  assert (Hu : points_to (mem st) (upto s i) a).
  { destruct Hp as (Ha & Hc & Hl). repeat split; cbn [upto arr off len cap]; [done | done | lia]. }
  destruct (append_spec (mem st) (upto s i) (elems (mem st) (from s (S i))) a Hu)
    as (He & Hp' & _ & _).
  destruct (append growcap _ _ _) as [s' h']. cbn [fst snd] in *.
  split; [done|]. split; [|exact Hp'].
  unfold view. cbn [app mem tasks nextID]. f_equal. rewrite He.
  rewrite (elems_upto _ _ _ _ Hp) by lia. by rewrite (elems_from _ _ _ _ Hp) by lia.
Qed.

(** [GetTasks] returns the live tasks in a slice over a fresh array and
    leaves the store as it was. *)
Lemma sim_GetTasks st :
  wf st ->
  elems (mem (GetTasks st).2) (GetTasks st).1 = (Store.GetTasks (view st)).1 /\
  view (GetTasks st).2 = (Store.GetTasks (view st)).2 /\
  wf (GetTasks st).2 /\
  (arr (GetTasks st).1 ∉ dom (mem st)) /\
  apart (arr (GetTasks st).1) (GetTasks st).2.
Proof.
  intros [a Hp]. unfold GetTasks, make, copy.
  cbn [fst snd arr off len cap app mem Store.GetTasks view Store.tasks].
  set (s := tasks (app st)) in *. set (h := mem st) in *.
  set (l := fresh (dom h)). set (h1 := <[l := replicate (len s) zero]> h).
  assert (Hl : l ∉ dom h) by apply is_fresh.
  assert (Hne : arr s <> l).
  { intros E. apply Hl. rewrite <- E. apply elem_of_dom. destruct Hp as (-> & _). eauto. }
  assert (Ho1 : only_at l h h1).
  { intros l' _ Hl'. unfold h1. by rewrite lookup_insert_ne. }
  pose proof (elems_only_at _ _ _ _ _ Hp Ho1 Hne) as He1.
  pose proof (length_elems _ _ _ Hp) as HE.
  set (f := fun a0 : list Task => _).
  assert (Ho2 : only_at l h (alter f l h1)).
  { intros l' Hd Hl'. rewrite lookup_alter_ne by done. by apply Ho1. }
  assert (Hc : alter f l h1 !! l = Some (elems h s)).
  { rewrite lookup_alter_eq. unfold h1. rewrite lookup_insert_eq. cbn [fmap option_fmap option_map].
    f_equal. unfold f. rewrite take_0, He1, Nat.min_id. cbn [plus app].
    rewrite take_ge by lia. rewrite drop_replicate, Nat.sub_diag. cbn [replicate].
    apply app_nil_r. }
  split; [|split; [|split; [|split]]].
  - unfold elems at 1.
    rewrite (backing_lookup _ {| arr := l; off := 0; len := len s; cap := len s |}
               (elems h s) Hc).
    cbn [arr off len]. rewrite drop_0. apply take_ge. lia.
  - unfold view. cbn [app mem]. f_equal. by apply (elems_only_at _ _ _ a l).
  - exists a. by apply (points_to_only_at h _ _ _ l).
  - exact Hl.
  - split; [|intros E; by apply Hne]. apply elem_of_dom. eexists. exact Hc.
Qed.

Lemma sim_exec os st :
  wf st ->
  view (Slices.exec growcap os st) = Runs.exec os (view st) /\
  wf (Slices.exec growcap os st).
Proof.
  revert st. induction os as [|o os IH]; intros st Hwf; [done|].
  unfold Slices.exec, Runs.exec in *. cbn [foldl].
  assert (Hs : view (Slices.step growcap st o) = Runs.step (view st) o /\
               wf (Slices.step growcap st o)).
  { destruct o as [title|id|id]; cbn [Slices.step Runs.step].
    - by destruct (sim_AddTask st title Hwf) as (_ & ? & ?).
    - by destruct (sim_ToggleTask st id Hwf) as (_ & ? & ?).
    - by destruct (sim_DeleteTask st id Hwf) as (_ & ? & ?). }
  destruct Hs as [Hv Hw]. rewrite <- Hv. by apply IH.
Qed.

(** *** What the store's writers leave alone

    An array that is [apart] from the store's stays as it is, and stays
    apart, whatever the writers do. *)

Lemma step_apart st o l :
  wf st -> apart l st ->
  mem (Slices.step growcap st o) !! l = mem st !! l /\
  apart l (Slices.step growcap st o).
Proof.
  intros [a Hp] [Hd Hne].
  assert (Hk : forall st', mem st' !! l = mem st !! l ->
                 l <> arr (tasks (app st')) ->
                 mem st' !! l = mem st !! l /\ apart l st').
  { intros st' Hm Hn. split; [done|]. split; [|done].
    apply elem_of_dom. rewrite Hm. by apply elem_of_dom. }
  destruct o as [title|id|id]; cbn [Slices.step].
  - unfold AddTask.
    destruct (append_spec (mem st) (tasks (app st))
                [{| ID := nextID (app st); Title := title; Completed := false |}] a Hp)
      as (_ & _ & Ho & Hn).
    destruct (append growcap _ _ _) as [s' h']. cbn [fst snd] in *.
    apply Hk; cbn [app mem tasks]; [by apply Ho|].
    intros E. destruct Hn as [Hn|Hn]; [congruence|].
    apply Hn. by rewrite <- E.
  - unfold ToggleTask. destruct (range_find id _ 0) as [i|]; cbn [snd]; [|by apply Hk].
    apply Hk; cbn [app mem tasks]; [|done]. by rewrite lookup_alter_ne.
  - unfold DeleteTask. destruct (range_find id _ 0) as [i|] eqn:Hf; cbn [snd]; [|by apply Hk].
    pose proof (found_in_range _ _ _ _ Hp Hf) as Hi.
    assert (Hu : points_to (mem st) (upto (tasks (app st)) i) a).
    { destruct Hp as (Ha & Hc & Hl). repeat split; cbn [upto arr off len cap]; [done | done | lia]. }
    destruct (append_spec (mem st) (upto (tasks (app st)) i)
                (elems (mem st) (from (tasks (app st)) (S i))) a Hu)
      as (_ & _ & Ho & Hn).
    destruct (append growcap _ _ _) as [s' h']. cbn [fst snd] in *.
    apply Hk; cbn [app mem tasks]; [by apply Ho|].
    intros E. cbn [upto arr] in Hn. destruct Hn as [Hn|Hn]; [congruence|].
    apply Hn. by rewrite <- E.
Qed.

Lemma exec_apart os st l :
  wf st -> apart l st -> mem (Slices.exec growcap os st) !! l = mem st !! l.
Proof.
  revert st. induction os as [|o os IH]; intros st Hwf Hl; [done|].
  unfold Slices.exec in *. cbn [foldl].
  destruct (step_apart st o l Hwf Hl) as [Hm Hl'].
  assert (Hwf' : wf (Slices.step growcap st o)).
  { destruct o as [title|id|id]; cbn [Slices.step].
    - by destruct (sim_AddTask st title Hwf) as (_ & _ & ?).
    - by destruct (sim_ToggleTask st id Hwf) as (_ & _ & ?).
    - by destruct (sim_DeleteTask st id Hwf) as (_ & _ & ?). }
  by rewrite (IH _ Hwf' Hl').
Qed.

End WithGrowcap.

End SliceLemmas.

(** ** The four methods, call by call *)

(** C2, as the store keeps it. For every store state and every title, the
    empty one included, [AddTask] returns: there is no error path. The task
    it returns carries the store's current [nextID], the given title and
    [Completed = false], and the collection afterwards is the old one with
    exactly that task appended at the end. Where [nextID] is below
    [maxInt = 2^63 - 1], [nextID] afterwards is [nextID + 1]; at [maxInt]
    the [++] wraps it to [minInt = -2^63]. The same holds on the backing
    arrays, whether [append] writes in place or moves the collection to a
    larger array. *)
Theorem AddTask_spec (app : TodoApp) (title : string) :
  exists task app',
    AddTask app title = (task, app') /\
    ID task = nextID app /\ Title task = title /\ Completed task = false /\
    tasks app' = tasks app ++ [task] /\
    (GoInt.minInt <= nextID app < GoInt.maxInt -> nextID app' = nextID app + 1) /\
    (nextID app = GoInt.maxInt -> nextID app' = GoInt.minInt) /\
    (forall growcap st,
       Slices.wf st -> Slices.view st = app ->
       (Slices.AddTask growcap st title).1 = task /\
       Slices.view (Slices.AddTask growcap st title).2 = app' /\
       Slices.wf (Slices.AddTask growcap st title).2).
Proof.
  eexists _, _. split; [reflexivity|]. repeat (split; [reflexivity|]).
  cbn [nextID]. split; [apply incr_below_max|].
  split; [intros ->; apply incr_at_max|].
  intros growcap st Hwf <-. apply sim_AddTask, Hwf.
Qed.

Lemma AddTask_spec_witness :
  let app := exec [Create "A"; Delete 1] NewTodoApp in
  exists task app',
    AddTask app "" = (task, app') /\
    ID task = 2 /\ Title task = "" /\ Completed task = false /\
    tasks app' = [task] /\ nextID app' = 3.
Proof.
  intros app.
  destruct (AddTask_spec app "") as (task & app' & HA & HI & HT & HC & Hts & Hinc & _).
  exists task, app'. split; [exact HA|]. split; [exact HI|]. split; [exact HT|].
  split; [exact HC|]. split; [exact Hts|].
  rewrite Hinc; [reflexivity|].
  split; [apply Z.leb_le | apply Z.ltb_lt]; reflexivity.
Defined.

(** C3. For every store state and every id: if some task carries the id,
    [DeleteTask] removes the first entry that carries it and nothing else
    (the collection is one shorter, the entries before and after keep
    their order, their IDs and all their fields, [nextID] is unchanged) and
    returns true; if no task carries the id, it returns false and the store
    is unchanged. The same holds on the backing array, where the entries
    after the match are shifted down by one in place. *)
Theorem DeleteTask_spec (app : TodoApp) (id : Z) :
  (id ∈ ids app ->
   exists l1 t l2,
     tasks app = l1 ++ t :: l2 /\ ID t = id /\ (id ∉ ID <$> l1) /\
     DeleteTask app id = (true, {| tasks := l1 ++ l2; nextID := nextID app |}) /\
     S (length (l1 ++ l2)) = length (tasks app)) /\
  (id ∉ ids app -> DeleteTask app id = (false, app)) /\
  (forall growcap st,
     Slices.wf st -> Slices.view st = app ->
     (Slices.DeleteTask growcap st id).1 = (DeleteTask app id).1 /\
     Slices.view (Slices.DeleteTask growcap st id).2 = (DeleteTask app id).2 /\
     Slices.wf (Slices.DeleteTask growcap st id).2).
Proof.
  split; [|split; [|intros growcap st Hwf <-; apply sim_DeleteTask, Hwf]].
  - intros Hin. destruct (found_split _ _ Hin) as (l1 & t & l2 & Hts & Ht & Hl1 & Hf).
    exists l1, t, l2. repeat split; [done | done | | |].
    + rewrite list_elem_of_fmap. intros (u & -> & Hu).
      rewrite Forall_forall in Hl1. by apply (Hl1 u).
    + unfold DeleteTask. rewrite Hf, Hts.
      rewrite take_app_length. rewrite cons_middle, app_assoc.
      rewrite drop_app_length'; [done|]. rewrite length_app. simpl. lia.
    + rewrite Hts, !length_app. simpl. lia.
  - apply DeleteTask_absent.
Qed.

Lemma DeleteTask_spec_witness :
  let app := exec [Create "1"; Create "2"; Create "3"] NewTodoApp in
  2 ∈ ids app /\
  (exists l1 t l2,
     tasks app = l1 ++ t :: l2 /\ ID t = 2 /\ (2 ∉ ID <$> l1) /\
     DeleteTask app 2 = (true, {| tasks := l1 ++ l2; nextID := nextID app |}) /\
     S (length (l1 ++ l2)) = length (tasks app)) /\
  (999 ∉ ids app) /\
  DeleteTask app 999 = (false, app).
Proof.
  assert (H2 : 2 ∈ ids (exec [Create "1"; Create "2"; Create "3"] NewTodoApp))
    by compute_done.
  assert (H9 : 999 ∉ ids (exec [Create "1"; Create "2"; Create "3"] NewTodoApp))
    by compute_done.
  split; [exact H2|]. split; [exact (proj1 (DeleteTask_spec _ 2) H2)|].
  split; [exact H9|]. exact (proj1 (proj2 (DeleteTask_spec _ 999)) H9).
Defined.

(** C4. For every store state and every id: if some task carries the id,
    [ToggleTask] negates the [Completed] flag of the first task that
    carries it, leaves that task's ID and title, every other task and
    [nextID] as they were, and returns true; if no task carries the id, it
    returns false and the store is unchanged. Either way at most one
    position of the collection differs afterwards. The same holds on the
    backing array, where the flag is written in place. *)
Theorem ToggleTask_spec (app : TodoApp) (id : Z) :
  (id ∈ ids app ->
   exists l1 t l2,
     tasks app = l1 ++ t :: l2 /\ ID t = id /\ (id ∉ ID <$> l1) /\
     ToggleTask app id =
       (true, {| tasks := l1 ++ {| ID := ID t; Title := Title t;
                                   Completed := negb (Completed t) |} :: l2;
                 nextID := nextID app |})) /\
  (id ∉ ids app -> ToggleTask app id = (false, app)) /\
  (changed (tasks app) (tasks (ToggleTask app id).2) <= 1)%nat /\
  (forall st,
     Slices.wf st -> Slices.view st = app ->
     (Slices.ToggleTask st id).1 = (ToggleTask app id).1 /\
     Slices.view (Slices.ToggleTask st id).2 = (ToggleTask app id).2 /\
     Slices.wf (Slices.ToggleTask st id).2).
Proof.
  split; [|split; [|split; [|intros st Hwf <-; apply sim_ToggleTask, Hwf]]].
  - intros Hin. destruct (found_split _ _ Hin) as (l1 & t & l2 & Hts & Ht & Hl1 & Hf).
    exists l1, t, l2. repeat split; [done | done | |].
    + rewrite list_elem_of_fmap. intros (u & -> & Hu).
      rewrite Forall_forall in Hl1. by apply (Hl1 u).
    + unfold ToggleTask. by rewrite Hf, Hts, alter_middle.
  - apply ToggleTask_absent.
  - destruct (decide (id ∈ ids app)) as [Hin|Hnin].
    + destruct (found_split _ _ Hin) as (l1 & t & l2 & Hts & Ht & Hl1 & Hf).
      unfold ToggleTask. rewrite Hf, Hts. cbn [tasks snd].
      by rewrite alter_middle, changed_flip.
    + unfold ToggleTask.
      apply (range_find_None id (tasks app) 0) in Hnin as ->. simpl.
      rewrite changed_refl. lia.
Qed.

Lemma ToggleTask_spec_witness :
  let app := exec [Create "1"; Create "2"; Create "3"] NewTodoApp in
  2 ∈ ids app /\
  (exists l1 t l2,
     tasks app = l1 ++ t :: l2 /\ ID t = 2 /\ (2 ∉ ID <$> l1) /\
     ToggleTask app 2 =
       (true, {| tasks := l1 ++ {| ID := ID t; Title := Title t;
                                   Completed := negb (Completed t) |} :: l2;
                 nextID := nextID app |})) /\
  (999 ∉ ids app) /\
  ToggleTask app 999 = (false, app).
Proof.
  assert (H2 : 2 ∈ ids (exec [Create "1"; Create "2"; Create "3"] NewTodoApp))
    by compute_done.
  assert (H9 : 999 ∉ ids (exec [Create "1"; Create "2"; Create "3"] NewTodoApp))
    by compute_done.
  split; [exact H2|]. split; [exact (proj1 (ToggleTask_spec _ 2) H2)|].
  split; [exact H9|]. exact (proj1 (proj2 (ToggleTask_spec _ 999)) H9).
Defined.

(** C6. For every store state and every id that some task carries, two
    [ToggleTask] calls in succession both return true and leave the store
    exactly as it was before the first. *)
Theorem ToggleTask_twice (app : TodoApp) (id : Z) :
  id ∈ ids app ->
  (ToggleTask app id).1 = true /\
  ToggleTask (ToggleTask app id).2 id = (true, app).
Proof.
  intros Hin. destruct (found_split _ _ Hin) as (l1 & t & l2 & Hts & Ht & Hl1 & Hf).
  destruct app as [ts n]. simpl in *. subst ts.
  unfold ToggleTask. cbn [tasks nextID fst snd].
  rewrite Hf. cbn [tasks nextID fst snd]. split; [done|].
  rewrite alter_middle.
  rewrite (range_find_app id l1 (flip t) l2 0 Hl1 Ht). cbn [tasks nextID plus].
  by rewrite alter_middle, flip_flip.
Qed.

Lemma ToggleTask_twice_witness :
  let app := (AddTask (AddTask NewTodoApp "A").2 "B").2 in
  (ToggleTask app 2).1 = true /\ ToggleTask (ToggleTask app 2).2 2 = (true, app).
Proof. apply ToggleTask_twice. compute_done. Defined.

(** C9. For every store state and every id, [ToggleTask] and [DeleteTask]
    return the same boolean, and it is true exactly when the id is in the
    set of the IDs of the live tasks. *)
Theorem found_agree (app : TodoApp) (id : Z) :
  (ToggleTask app id).1 = (DeleteTask app id).1 /\
  ((ToggleTask app id).1 = true <-> id ∈ live_ids app).
Proof.
  unfold ToggleTask, DeleteTask, live_ids. rewrite elem_of_list_to_set.
  rewrite <- (range_find_is_Some id (tasks app) 0).
  destruct (range_find id (tasks app) 0); simpl; split; try done.
Qed.

(** ** Runs of the store: the ID invariant *)

Section Runs.

Implicit Types (app : TodoApp) (os : list op) (o : op) (n : Z).

Lemma exec_snoc os o app : exec (os ++ [o]) app = step (exec os app) o.
Proof. unfold exec. by rewrite foldl_snoc. Qed.

Lemma exec_app os1 os2 app : exec (os1 ++ os2) app = exec os2 (exec os1 app).
Proof. unfold exec. by rewrite foldl_app. Qed.

Lemma issued_snoc os o app :
  issued (os ++ [o]) app = issued os app ++ issued_by (exec os app) o.
Proof.
  revert app. induction os as [|o' os IH]; intros app; simpl.
  - by rewrite app_nil_r.
  - by rewrite IH, app_assoc.
Qed.

Lemma creates_snoc os o :
  creates (os ++ [o]) = (creates os + (if is_create o then 1 else 0))%nat.
Proof.
  unfold creates. rewrite filter_app, length_app. f_equal.
  destruct o; reflexivity.
Qed.

Lemma ids_alter_flip (ts : list Task) (i : nat) :
  ID <$> alter flip i ts = ID <$> ts.
Proof.
  revert i. induction ts as [|t ts IH]; intros [|i]; csimpl; try done.
  f_equal. apply IH.
Qed.

Lemma Forall_alter_flip (P : Z -> Prop) (ts : list Task) (i : nat) :
  Forall (fun t => P (ID t)) ts -> Forall (fun t => P (ID t)) (alter flip i ts).
Proof.
  intros H. revert i. induction H as [|t ts Ht Hts IH]; intros [|i].
  - constructor.
  - constructor.
  - constructor; [exact Ht | exact Hts].
  - constructor; [exact Ht | exact (IH i)].
Qed.

(** [ToggleTask] and [DeleteTask] keep the invariant and the counter. *)
Lemma inv_ToggleTask n app id : inv n app -> inv n (ToggleTask app id).2.
Proof.
  intros (Hn & Hr & Hd). unfold ToggleTask.
  destruct (range_find id (tasks app) 0) as [i|]; [|done].
  repeat split; cbn [snd tasks nextID]; [done | |].
  - by apply (Forall_alter_flip (fun z => 1 <= z <= n)).
  - unfold ids. cbn [tasks]. by rewrite ids_alter_flip.
Qed.

Lemma inv_DeleteTask n app id : inv n app -> inv n (DeleteTask app id).2.
Proof.
  intros (Hn & Hr & Hd). unfold DeleteTask.
  destruct (range_find id (tasks app) 0) as [i|]; [|done].
  assert (Hsub : sublist (take i (tasks app) ++ drop (S i) (tasks app)) (tasks app)).
  { rewrite <- delete_take_drop. apply sublist_delete. }
  repeat split; cbn [snd tasks nextID]; [done | |].
  - rewrite Forall_forall in Hr |- *. intros t Ht.
    apply Hr. by eapply elem_of_sublist.
  - unfold ids. cbn [tasks]. eapply sublist_NoDup; [exact Hd|].
    by apply fmap_sublist.
Qed.

(** [AddTask] moves it from [n] to [n + 1], as long as the ID it hands out
    is at most [maxInt]. *)
Lemma inv_AddTask n app title :
  0 <= n < GoInt.maxInt -> inv n app -> inv (n + 1) (AddTask app title).2.
Proof.
  intros Hb (Hn & Hr & Hd).
  assert (Hid : nextID app = 1 + n).
  { rewrite Hn. apply wrap_in_range. rewrite minInt_eq, maxInt_eq in *. lia. }
  repeat split; cbn [snd AddTask tasks nextID].
  - unfold GoInt.incr. rewrite Hid. f_equal. lia.
  - apply Forall_app. split.
    + eapply Forall_impl; [exact Hr|]. simpl. lia.
    + constructor; [|constructor]. simpl. lia.
  - unfold ids. cbn [tasks]. rewrite fmap_app. apply NoDup_app.
    split; [exact Hd|]. split; [|apply NoDup_singleton].
    intros z Hz. simpl. rewrite list_elem_of_singleton. intros ->.
    apply list_elem_of_fmap in Hz as (t & Ht & Hin).
    rewrite Forall_forall in Hr. specialize (Hr t Hin). lia.
Qed.

Lemma inv_NewTodoApp : inv 0 NewTodoApp.
Proof. repeat split; [constructor | constructor]. Qed.

(** A run with at most [maxInt] creates ends in a state that satisfies the
    invariant at its number of creates. *)
Lemma inv_exec os :
  Z.of_nat (creates os) <= GoInt.maxInt -> inv (Z.of_nat (creates os)) (exec os NewTodoApp).
Proof.
  induction os as [|o os IH] using rev_ind; [intros _; apply inv_NewTodoApp|].
  rewrite creates_snoc, exec_snoc. intros Hb.
  destruct o as [title|id|id]; simpl in *.
  - replace (Z.of_nat (creates os + 1)) with (Z.of_nat (creates os) + 1) by lia.
    apply inv_AddTask; [lia|]. apply IH. lia.
  - rewrite Nat.add_0_r in *. apply inv_ToggleTask. by apply IH.
  - rewrite Nat.add_0_r in *. apply inv_DeleteTask. by apply IH.
Qed.

Lemma nextID_exec os :
  Z.of_nat (creates os) < GoInt.maxInt ->
  nextID (exec os NewTodoApp) = 1 + Z.of_nat (creates os).
Proof.
  intros Hb. destruct (inv_exec os) as (Hn & _); [lia|]. rewrite Hn.
  apply wrap_in_range. rewrite minInt_eq, maxInt_eq in *. lia.
Qed.

(** The IDs a run hands out are 1, 2, ..., one per create. *)
Lemma issued_exec os :
  Z.of_nat (creates os) <= GoInt.maxInt ->
  issued os NewTodoApp = (fun k => 1 + Z.of_nat k) <$> seq 0 (creates os).
Proof.
  induction os as [|o os IH] using rev_ind; [done|].
  rewrite creates_snoc, issued_snoc. intros Hb.
  destruct o as [title|id|id]; simpl in *.
  - rewrite seq_app, fmap_app, IH by lia. simpl. do 2 f_equal.
    destruct (inv_exec os) as (Hn & _); [lia|]. rewrite Hn.
    apply wrap_in_range. rewrite minInt_eq, maxInt_eq in *. lia.
  - rewrite Nat.add_0_r in *. rewrite app_nil_r. by apply IH.
  - rewrite Nat.add_0_r in *. rewrite app_nil_r. by apply IH.
Qed.

End Runs.

Section Wrap.

(** [k] rounds of create-then-delete leave the collection empty and move
    the counter [k] up, while it stays within [int]. *)
Lemma exec_churn (k : nat) (from : Z) :
  GoInt.minInt <= from -> from + Z.of_nat k <= GoInt.maxInt ->
  exec (churn k from) {| tasks := []; nextID := from |}
  = {| tasks := []; nextID := from + Z.of_nat k |}.
Proof.
  revert from. induction k as [|k IH]; intros from Hlo Hhi.
  - cbn [churn exec foldl]. f_equal. lia.
  - cbn [churn exec foldl step AddTask DeleteTask snd tasks nextID app].
    rewrite incr_below_max by lia.
    unfold DeleteTask. cbn [tasks nextID range_find ID]. rewrite Z.eqb_refl.
    cbn [snd take drop app].
    change (foldl step ?a ?os) with (exec os a).
    rewrite IH by lia. f_equal. lia.
Qed.

(** After [maxInt - 1] such rounds the counter stands at [maxInt]. *)
Lemma exec_churn_max :
  exec (churn (Z.to_nat (GoInt.maxInt - 1)) 1) NewTodoApp
  = {| tasks := []; nextID := GoInt.maxInt |}.
Proof.
  assert (H0 : 0 <= GoInt.maxInt - 1) by (apply Z.leb_le; reflexivity).
  unfold NewTodoApp. rewrite exec_churn.
  - rewrite Z2Nat.id by exact H0. f_equal; lia.
  - apply Z.leb_le. reflexivity.
  - rewrite Z2Nat.id by exact H0. lia.
Qed.

End Wrap.

(** C1, as the store keeps it. In every state that a run of create, toggle
    and delete calls with fewer than [maxInt = 2^63 - 1] creates reaches
    from the initial state: the IDs of the live tasks are pairwise different
    and each is strictly below [nextID]; [nextID] is 1 plus the number of
    creates so far; every create of the run moved it up by exactly 1 and
    every toggle and delete left it alone; and the IDs handed out so far,
    those of deleted tasks included, are pairwise different, all below
    [nextID] (so the next create hands out none of them), and include every
    live ID. *)
Theorem store_id_invariant (os : list op) :
  Z.of_nat (creates os) < GoInt.maxInt ->
  let app := exec os NewTodoApp in
  NoDup (ids app) /\
  Forall (fun t => ID t < nextID app) (tasks app) /\
  nextID app = 1 + Z.of_nat (creates os) /\
  (forall os1 o os2, os = os1 ++ o :: os2 ->
     nextID (step (exec os1 NewTodoApp) o)
     = nextID (exec os1 NewTodoApp) + (if is_create o then 1 else 0)) /\
  NoDup (issued os NewTodoApp) /\
  Forall (fun z => z < nextID app) (issued os NewTodoApp) /\
  ids app ⊆ issued os NewTodoApp.
Proof.
  intros Hb app.
  destruct (inv_exec os) as (_ & Hr & Hd); [lia|]. fold app in Hr, Hd.
  pose proof (nextID_exec os Hb) as Hid. fold app in Hid.
  rewrite issued_exec by lia.
  repeat split.
  - exact Hd.
  - rewrite Hid. eapply Forall_impl; [exact Hr|].
    intros t Ht. simpl in Ht |- *. clear -Ht. lia.
  - exact Hid.
  - intros os1 o os2 ->. rewrite <- exec_snoc.
    assert (Hc : (creates (os1 ++ [o]) <= creates (os1 ++ o :: os2))%nat).
    { rewrite (cons_middle o os1 os2), app_assoc.
      unfold creates. rewrite (filter_app _ (os1 ++ [o])), length_app. lia. }
    rewrite !nextID_exec; rewrite ?creates_snoc in *; [|lia..].
    destruct (is_create o); lia.
  - apply NoDup_fmap_2; [intros x y; lia | apply NoDup_seq].
  - rewrite Hid. apply Forall_fmap, Forall_forall. intros k Hk.
    apply elem_of_seq in Hk. simpl. lia.
  - intros z Hz. apply list_elem_of_fmap in Hz as (t & -> & Hin).
    rewrite Forall_forall in Hr. specialize (Hr t Hin).
    apply list_elem_of_fmap. exists (Z.to_nat (ID t - 1)).
    split; [lia | apply elem_of_seq; lia].
Qed.

Lemma store_id_invariant_witness :
  let os := [Create "A"; Create "B"; Toggle 1; Delete 1; Create "C"] in
  let app := exec os NewTodoApp in
  NoDup (ids app) /\
  Forall (fun t => ID t < nextID app) (tasks app) /\
  nextID app = 1 + Z.of_nat (creates os) /\
  (forall os1 o os2, os = os1 ++ o :: os2 ->
     nextID (step (exec os1 NewTodoApp) o)
     = nextID (exec os1 NewTodoApp) + (if is_create o then 1 else 0)) /\
  NoDup (issued os NewTodoApp) /\
  Forall (fun z => z < nextID app) (issued os NewTodoApp) /\
  ids app ⊆ issued os NewTodoApp.
Proof.
  apply (store_id_invariant [Create "A"; Create "B"; Toggle 1; Delete 1; Create "C"]).
  vm_compute. reflexivity.
Defined.

(** C1 as stated fails where [int] wraps. [maxInt - 1] rounds of
    create-then-delete bring [nextID] to [maxInt]; one more create hands out
    the ID [maxInt] and wraps [nextID] to [minInt]: the one live task then
    has an ID above [nextID]. *)
Lemma store_id_invariant_wraps :
  let os := churn (Z.to_nat (GoInt.maxInt - 1)) 1 in
  let app := exec (os ++ [Create ""]) NewTodoApp in
  nextID (exec os NewTodoApp) = GoInt.maxInt /\
  app = {| tasks := [{| ID := GoInt.maxInt; Title := ""; Completed := false |}];
           nextID := GoInt.minInt |} /\
  exists t, t ∈ tasks app /\ nextID app < ID t.
Proof.
  cbv zeta. rewrite exec_app, exec_churn_max.
  split; [reflexivity|]. split; [reflexivity|].
  eexists. split; [apply list_elem_of_singleton; reflexivity|].
  apply Z.ltb_lt. reflexivity.
Qed.

(** C2 as stated fails at the same place. [maxInt - 1] rounds of
    create-then-delete bring [nextID] to [maxInt]; the next create returns
    the task with ID [maxInt] and leaves [nextID] at [minInt]: the counter
    has not gone up by 1, it has gone down. *)
Lemma AddTask_wraps :
  let app := exec (churn (Z.to_nat (GoInt.maxInt - 1)) 1) NewTodoApp in
  nextID app = GoInt.maxInt /\
  AddTask app ""
  = ({| ID := GoInt.maxInt; Title := ""; Completed := false |},
     {| tasks := [{| ID := GoInt.maxInt; Title := ""; Completed := false |}];
        nextID := GoInt.minInt |}) /\
  nextID (AddTask app "").2 < nextID app.
Proof.
  cbv zeta. rewrite exec_churn_max.
  split; [reflexivity|]. split; [reflexivity|].
  apply Z.ltb_lt. reflexivity.
Qed.

(** ** Runs without a delete: the collection is the creation log *)

Section NoDelete.

Implicit Types (app : TodoApp) (os : list op).

Lemma titles_alter_flip (ts : list Task) (i : nat) :
  Title <$> alter flip i ts = Title <$> ts.
Proof.
  revert i. induction ts as [|t ts IH]; intros [|i]; csimpl; try done.
  f_equal. apply IH.
Qed.

Lemma length_issued os app : length (issued os app) = creates os.
Proof.
  revert app. induction os as [|o os IH]; intros app; [done|].
  cbn [issued]. rewrite length_app, IH. unfold creates.
  destruct o; reflexivity.
Qed.

Lemma exec_no_delete os app :
  forallb (fun o => negb (is_delete o)) os = true ->
  ids (exec os app) = ids app ++ issued os app /\
  Title <$> tasks (exec os app) = (Title <$> tasks app) ++ created_titles os.
Proof.
  revert app. induction os as [|o os IH]; intros app Hnd.
  - cbn. by rewrite !app_nil_r.
  - cbn [forallb] in Hnd. apply andb_prop in Hnd as [Ho Hnd].
    change (exec (o :: os) app) with (exec os (step app o)).
    destruct (IH (step app o) Hnd) as [Hi Ht]. rewrite Hi, Ht.
    destruct o as [title|id|id]; [| |discriminate].
    + cbn [step AddTask snd issued issued_by fst ID created_titles omap].
      unfold ids. cbn [tasks]. rewrite !fmap_app. cbn [fmap list_fmap ID Title].
      by rewrite <- !app_assoc.
    + cbn [step issued issued_by created_titles omap]. unfold ToggleTask.
      destruct (range_find id (tasks app) 0) as [i|]; cbn [snd]; [|done].
      unfold ids. cbn [tasks]. by rewrite ids_alter_flip, titles_alter_flip.
Qed.

End NoDelete.

(** C5. [GetTasks] returns exactly the live tasks, in the order of the
    collection, in a slice over a newly allocated array, and leaves the
    store as it was. The two do not share storage: whatever the store's
    writers do afterwards, the snapshot keeps those tasks; and whatever is
    done to the heap through the snapshot (element writes, appends, into its
    array or into new ones), the store is unchanged and a later [GetTasks]
    returns the same tasks. And after a run without a delete, [GetTasks]
    returns as many tasks as the run created, with the titles and the IDs in
    creation order. *)
Theorem GetTasks_snapshot (growcap : nat -> nat -> nat) (st : Slices.state) :
  Slices.wf st ->
  let snap := (Slices.GetTasks st).1 in
  let st' := (Slices.GetTasks st).2 in
  Slices.elems (Slices.mem st') snap = (GetTasks (Slices.view st)).1 /\
  (GetTasks (Slices.view st)).1 = tasks (Slices.view st) /\
  Slices.view st' = Slices.view st /\
  (Slices.arr snap ∉ dom (Slices.mem st)) /\
  Slices.arr snap <> Slices.arr (Slices.tasks (Slices.app st')) /\
  (forall os,
     Slices.elems (Slices.mem (Slices.exec growcap os st')) snap
     = tasks (Slices.view st)) /\
  (forall h', Slices.only_at (Slices.arr snap) (Slices.mem st') h' ->
     let st'' := {| Slices.app := Slices.app st'; Slices.mem := h' |} in
     Slices.view st'' = Slices.view st /\
     Slices.elems (Slices.mem (Slices.GetTasks st'').2) (Slices.GetTasks st'').1
     = tasks (Slices.view st)) /\
  (forall os h0,
     forallb (fun o => negb (is_delete o)) os = true ->
     let stN := Slices.exec growcap os (Slices.NewTodoApp h0) in
     let l := Slices.elems (Slices.mem (Slices.GetTasks stN).2) (Slices.GetTasks stN).1 in
     length l = creates os /\
     Title <$> l = created_titles os /\
     ID <$> l = issued os NewTodoApp).
Proof.
  intros Hwf snap st'.
  destruct (sim_GetTasks st Hwf) as (He & Hv & Hwf' & Hfresh & Hap).
  fold snap st' in He, Hv, Hwf', Hfresh, Hap. cbn [GetTasks fst snd] in He, Hv.
  pose proof (proj2 Hap) as Hne.
  split; [exact He|]. split; [done|]. split; [exact Hv|].
  split; [exact Hfresh|]. split; [exact Hne|]. split; [|split].
  - intros os. rewrite <- He. unfold Slices.elems, Slices.backing.
    by rewrite (exec_apart growcap os st' _ Hwf' Hap).
  - intros h' Ho st''. destruct Hwf' as [a Hp].
    assert (Hp'' : Slices.points_to h' (Slices.tasks (Slices.app st')) a).
    { eapply points_to_only_at; [exact Hp | exact Ho | congruence]. }
    assert (Hv'' : Slices.view st'' = Slices.view st).
    { rewrite <- Hv. unfold Slices.view. cbn [Slices.app Slices.mem]. f_equal.
      eapply elems_only_at; [exact Hp | exact Ho | congruence]. }
    split; [exact Hv''|].
    destruct (sim_GetTasks st'') as (He'' & _); [by exists a|].
    by rewrite He'', Hv''.
  - intros os h0 Hnd stN l.
    destruct (sim_NewTodoApp h0) as [Hv0 Hwf0].
    destruct (sim_exec growcap os _ Hwf0) as [HvN HwfN]. fold stN in HvN, HwfN.
    destruct (sim_GetTasks stN HwfN) as (HeN & _). fold l in HeN.
    rewrite HvN, Hv0 in HeN. cbn [GetTasks fst] in HeN.
    destruct (exec_no_delete os NewTodoApp Hnd) as [Hi Ht].
    rewrite HeN. split; [|split].
    + rewrite <- (length_issued os NewTodoApp).
      change (issued os NewTodoApp) with (ids NewTodoApp ++ issued os NewTodoApp).
      rewrite <- Hi. unfold ids. by rewrite length_fmap.
    + exact Ht.
    + exact Hi.
Qed.

Lemma GetTasks_snapshot_witness :
  let st := Slices.example_state in
  let snap := (Slices.GetTasks st).1 in
  let st' := (Slices.GetTasks st).2 in
  Slices.elems (Slices.mem st') snap = (GetTasks (Slices.view st)).1 /\
  (GetTasks (Slices.view st)).1 = tasks (Slices.view st) /\
  Slices.view st' = Slices.view st /\
  (Slices.arr snap ∉ dom (Slices.mem st)) /\
  Slices.arr snap <> Slices.arr (Slices.tasks (Slices.app st')) /\
  (forall os,
     Slices.elems (Slices.mem (Slices.exec Slices.double os st')) snap
     = tasks (Slices.view st)) /\
  (forall h', Slices.only_at (Slices.arr snap) (Slices.mem st') h' ->
     let st'' := {| Slices.app := Slices.app st'; Slices.mem := h' |} in
     Slices.view st'' = Slices.view st /\
     Slices.elems (Slices.mem (Slices.GetTasks st'').2) (Slices.GetTasks st'').1
     = tasks (Slices.view st)) /\
  (forall os h0,
     forallb (fun o => negb (is_delete o)) os = true ->
     let stN := Slices.exec Slices.double os (Slices.NewTodoApp h0) in
     let l := Slices.elems (Slices.mem (Slices.GetTasks stN).2) (Slices.GetTasks stN).1 in
     length l = creates os /\
     Title <$> l = created_titles os /\
     ID <$> l = issued os NewTodoApp).
Proof.
  apply (GetTasks_snapshot Slices.double Slices.example_state).
  eexists. split; [vm_compute; reflexivity|]. split; vm_compute; lia.
Defined.

(** The snapshot of the example state, overwritten and appended to, and the
    store listed again. *)
Example snapshot_overwritten :
  let st := Slices.example_state in
  let snap := (Slices.GetTasks st).1 in
  let st' := (Slices.GetTasks st).2 in
  let h1 := Slices.set_index (Slices.mem st') snap 0 Slices.zero in
  let '(snap2, h2) := Slices.append Slices.double h1 snap [Slices.zero] in
  let st'' := {| Slices.app := Slices.app st'; Slices.mem := h2 |} in
  Slices.elems h2 snap2 = [Slices.zero;
                           {| ID := 2; Title := "B"; Completed := false |};
                           Slices.zero] /\
  Slices.elems (Slices.mem (Slices.GetTasks st'').2) (Slices.GetTasks st'').1
  = [{| ID := 1; Title := "A"; Completed := true |};
     {| ID := 2; Title := "B"; Completed := false |}].
Proof. vm_compute. split; reflexivity. Qed.

(** ** Strings: slicing and suffixes *)

Section StringLemmas.

Local Open Scope string_scope.
Local Arguments String.append !_ _ / : simpl nomatch.

Implicit Types (s p q : string) (c : ascii).

Lemma length_append p q :
  String.length (p ++ q) = (String.length p + String.length q)%nat.
Proof. induction p as [|c p IH]; simpl; [done | by f_equal]. Qed.

Lemma append_assoc p q s : (p ++ q) ++ s = p ++ (q ++ s).
Proof. induction p as [|c p IH]; simpl; [done | by f_equal]. Qed.

Lemma substring_whole s : substring 0 (String.length s) s = s.
Proof. induction s as [|c s IH]; simpl; [done | by f_equal]. Qed.

(** [(p ++ q)[len(p):]] is [q]. *)
Lemma substring_append_r p q :
  substring (String.length p) (String.length q) (p ++ q) = q.
Proof. induction p as [|c p IH]; simpl; [apply substring_whole | exact IH]. Qed.

(** [s] is [s[:n]] followed by [s[n:]]. *)
Lemma substring_split s (n m : nat) :
  (n + m)%nat = String.length s -> s = substring 0 n s ++ substring n m s.
Proof.
  revert n. induction s as [|c s IH]; intros [|n] Hl; simpl in *.
  - by destruct m.
  - discriminate.
  - destruct m as [|m]; [discriminate|]. injection Hl as ->.
    by rewrite substring_whole.
  - f_equal. apply IH. lia.
Qed.

Lemma length_substring s (n m : nat) :
  (n + m <= String.length s)%nat -> String.length (substring n m s) = m.
Proof.
  revert n m. induction s as [|c s IH]; intros [|n] [|m] Hl; simpl in *;
    try done; try lia.
  - f_equal. apply (IH 0%nat). lia.
  - apply IH. lia.
  - apply IH. lia.
Qed.

Lemma prefix_append p s : String.prefix p s = true -> exists q, s = p ++ q.
Proof.
  revert s. induction p as [|c p IH]; intros s Hp; [by exists s|].
  destruct s as [|c' s]; [discriminate|]. simpl in Hp.
  destruct (ascii_dec c c') as [->|]; [|discriminate].
  destruct (IH s Hp) as [q ->]. by exists q.
Qed.

(** The test of the routing closure, [p[len(p)-7:] == "/toggle"], is defined
    for a path of seven or more bytes, and is the suffix test. *)
Lemma slice_last7 p :
  (7 <= String.length p)%nat ->
  GoString.slice_from p (GoString.len p - 7)
  = Some (substring (String.length p - 7) 7 p).
Proof.
  intros Hl. unfold GoString.slice_from, GoString.slice, GoString.len.
  replace (0 <=? Z.of_nat (String.length p) - 7)%Z with true by (symmetry; apply Z.leb_le; lia).
  replace (Z.of_nat (String.length p) - 7 <=? Z.of_nat (String.length p))%Z with true
    by (symmetry; apply Z.leb_le; lia).
  rewrite Z.leb_refl. cbn [andb]. do 2 f_equal; lia.
Qed.

Lemma suffix_test p :
  (7 <= String.length p)%nat ->
  substring (String.length p - 7) 7 p = "/toggle" <-> Http.ends_with_toggle p.
Proof.
  intros Hl. split.
  - intros Hs. exists (substring 0 (String.length p - 7) p).
    rewrite <- Hs. apply substring_split. lia.
  - intros [q ->]. rewrite length_append. cbn [String.length].
    replace (String.length q + 7 - 7)%nat with (String.length q) by lia.
    apply (substring_append_r q "/toggle").
Qed.

End StringLemmas.

(** ** The dispatcher *)

Section Dispatcher.

Import Http.
Local Open Scope string_scope.
Local Arguments String.append !_ _ / : simpl nomatch.

Variable decodeTitle : string -> option string.

Implicit Types (app : TodoApp) (r : Request) (p q : string).

Lemma subtree_path r :
  String.prefix "/api/tasks/" (Path r) = true ->
  exists q, Path r = "/api/tasks/" ++ q /\
            String.length (Path r) = (11 + String.length q)%nat.
Proof.
  intros Hp. apply prefix_append in Hp as [q Hq]. exists q.
  split; [done|]. by rewrite Hq, length_append.
Qed.

Lemma choose_long r :
  (7 <= String.length (Path r))%nat ->
  choose r = Some (if substring (String.length (Path r) - 7) 7 (Path r) =? "/toggle"
                   then toggle_handler else delete_handler).
Proof. intros Hl. unfold choose. by rewrite slice_last7. Qed.

(** Under the subtree, the ID segment is everything after the prefix. *)
Lemma slice_after_prefix q :
  GoString.slice_from ("/api/tasks/" ++ q) (GoString.len "/api/tasks/") = Some q.
Proof.
  unfold GoString.slice_from, GoString.slice, GoString.len.
  rewrite length_append. cbn [String.length].
  replace (Z.of_nat 11 <=? Z.of_nat (11 + String.length q))%Z with true
    by (symmetry; apply Z.leb_le; lia).
  rewrite Z.leb_refl. cbn [Z.leb Z.compare Z.of_nat andb].
  replace (Z.to_nat (Z.of_nat (11 + String.length q) - Z.of_nat 11))
    with (String.length q) by lia.
  f_equal. apply (substring_append_r "/api/tasks/" q).
Qed.

Lemma slice_to_short q :
  (String.length q < 7)%nat ->
  GoString.slice_to q (GoString.len q - GoString.len "/toggle") = None.
Proof.
  intros Hl. unfold GoString.slice_to, GoString.slice, GoString.len.
  cbn [String.length].
  replace (0 <=? Z.of_nat (String.length q) - Z.of_nat 7)%Z with false
    by (symmetry; apply Z.leb_gt; lia).
  by rewrite andb_false_r.
Qed.

Lemma slice_to_long q :
  (7 <= String.length q)%nat ->
  is_Some (GoString.slice_to q (GoString.len q - GoString.len "/toggle")).
Proof.
  intros Hl. unfold GoString.slice_to, GoString.slice, GoString.len.
  cbn [String.length].
  replace (0 <=? Z.of_nat (String.length q) - Z.of_nat 7)%Z with true
    by (symmetry; apply Z.leb_le; lia).
  replace (Z.of_nat (String.length q) - Z.of_nat 7 <=? Z.of_nat (String.length q))%Z
    with true by (symmetry; apply Z.leb_le; lia).
  cbn [Z.leb Z.compare andb]. eauto.
Qed.

(** The only path under the subtree that ends in [/toggle] and has fewer
    than seven bytes after the prefix. *)
Lemma short_toggle_path q :
  (String.length q < 7)%nat ->
  ends_with_toggle ("/api/tasks/" ++ q) -> q = "toggle".
Proof.
  intros Hl He. apply suffix_test in He; [|rewrite length_append; simpl; lia].
  destruct q as [|c1 [|c2 [|c3 [|c4 [|c5 [|c6 [|c7 q]]]]]]];
    cbv in He; try discriminate; [|simpl in Hl; lia].
  by injection He as -> -> -> -> -> ->.
Qed.

Lemma api_tasks_returns app r : api_tasks decodeTitle app r <> Panic.
Proof.
  unfold api_tasks, GetTasksHandler, AddTaskHandler.
  destruct (Method r =? MethodGet); cbn [negb]; [done|].
  destruct (Method r =? MethodPost); cbn [negb]; [|done].
  destruct (decodeTitle (Body r)) as [title|]; [|done].
  by destruct (title =? "").
Qed.

Lemma DeleteTaskHandler_returns app r :
  String.prefix "/api/tasks/" (Path r) = true -> DeleteTaskHandler app r <> Panic.
Proof.
  intros Hp. destruct (subtree_path r Hp) as (q & Hq & _).
  unfold DeleteTaskHandler. destruct (negb _); [done|].
  rewrite Hq, slice_after_prefix.
  destruct (Strconv.Atoi q) as [id|]; [|done]. by destruct (DeleteTask app id).
Qed.

(** [ToggleTaskHandler] panics on exactly one request of its route. *)
Lemma ToggleTaskHandler_panics app r :
  String.prefix "/api/tasks/" (Path r) = true ->
  ends_with_toggle (Path r) ->
  ToggleTaskHandler app r = Panic <->
  Method r = "PUT" /\ Path r = "/api/tasks/toggle".
Proof.
  intros Hp He. destruct (subtree_path r Hp) as (q & Hq & _).
  unfold ToggleTaskHandler, MethodPut.
  destruct (String.eqb_spec (Method r) "PUT") as [Hm|Hm]; cbn [negb];
    [|split; [done | by intros [? _]]].
  rewrite Hq, slice_after_prefix.
  destruct (le_lt_dec 7 (String.length q)) as [Hl|Hl].
  - destruct (slice_to_long q Hl) as [idStr ->].
    split.
    + destruct (Strconv.Atoi idStr) as [id|]; [|done]. by destruct (ToggleTask app id).
    + intros [_ E]. injection E as ->. simpl in Hl. lia.
  - rewrite (slice_to_short q) by lia. split; [|done]. intros _.
    rewrite Hq in He. by rewrite (short_toggle_path q Hl He).
Qed.

(** The mux hands a request under [/api/tasks/] to the subtree closure. *)
Lemma serve_subtree app r :
  String.prefix "/api/tasks/" (Path r) = true ->
  serve decodeTitle app r = api_tasks_subtree app r.
Proof.
  intros Hp. destruct (subtree_path r Hp) as (q & Hq & Hl).
  unfold serve. rewrite Hp.
  destruct (String.eqb_spec (Path r) "/api/tasks") as [E'|_]; [|done].
  rewrite E' in Hl. simpl in Hl. lia.
Qed.

(** What the closure picks, and that it calls what it picks. *)
Lemma choose_spec (r : Request) :
  String.prefix "/api/tasks/" (Path r) = true ->
  (choose r = Some toggle_handler <-> ends_with_toggle (Path r)) /\
  (choose r = Some delete_handler <-> ~ ends_with_toggle (Path r)).
Proof.
  intros Hp. destruct (subtree_path r Hp) as (q & Hq & Hl).
  assert (H7 : (7 <= String.length (Path r))%nat) by lia.
  pose proof (suffix_test (Path r) H7) as Hs.
  rewrite (choose_long r H7).
  destruct (String.eqb_spec (substring (String.length (Path r) - 7) 7 (Path r)) "/toggle")
    as [E|E].
  - split; [split; [intros _; by apply Hs | done]|].
    split; [done | intros Hn; destruct Hn; by apply Hs].
  - split; [split; [done | intros He; destruct E; by apply Hs]|].
    split; [intros _ He; destruct E; by apply Hs | done].
Qed.

Lemma api_tasks_subtree_calls (app : TodoApp) (r : Request) :
  api_tasks_subtree app r
  = match choose r with
    | Some toggle_handler => ToggleTaskHandler app r
    | Some delete_handler => DeleteTaskHandler app r
    | None => Panic
    end.
Proof. unfold api_tasks_subtree. by destruct (choose r) as [[|]|]. Qed.

(** C7. For every request whose path is under [/api/tasks/]: the closure
    registered for that subtree picks the toggle handler exactly when the
    path ends with the seven bytes [/toggle], and the delete handler exactly
    when it does not; the pick looks at the path alone, never at the method
    or the body; and the closure calls the handler picked. *)
Theorem subtree_routing (app : TodoApp) (r : Request) :
  String.prefix "/api/tasks/" (Path r) = true ->
  (choose r = Some toggle_handler <-> ends_with_toggle (Path r)) /\
  (choose r = Some delete_handler <-> ~ ends_with_toggle (Path r)) /\
  (forall method body,
     choose {| Method := method; Path := Path r; Body := body |} = choose r) /\
  api_tasks_subtree app r
  = match choose r with
    | Some toggle_handler => ToggleTaskHandler app r
    | Some delete_handler => DeleteTaskHandler app r
    | None => Panic
    end.
Proof.
  intros Hp. destruct (choose_spec r Hp) as [Ht Hd].
  split; [exact Ht|]. split; [exact Hd|]. split; [reflexivity|].
  apply api_tasks_subtree_calls.
Qed.

(** The requests under [/api/tasks/] on which the closure panics: a PUT of
    [/api/tasks/toggle], the toggle route without an ID segment, and
    nothing else. *)
Lemma api_tasks_subtree_Panic_iff (app : TodoApp) (r : Request) :
  String.prefix "/api/tasks/" (Path r) = true ->
  api_tasks_subtree app r = Panic <->
  Method r = "PUT" /\ Path r = "/api/tasks/toggle".
Proof.
  intros Hp. destruct (choose_spec r Hp) as [Ht Hd].
  rewrite api_tasks_subtree_calls.
  destruct (choose r) as [[|]|] eqn:Hc.
  - apply ToggleTaskHandler_panics; [done | by apply Ht].
  - split; [by intros ?%DeleteTaskHandler_returns|].
    intros [_ E]. destruct (proj1 Hd eq_refl). rewrite E. by exists "/api/tasks".
  - destruct (subtree_path r Hp) as (q & _ & Hl).
    rewrite choose_long in Hc by lia. discriminate.
Qed.

(** And so the requests on which the server panics. *)
Lemma serve_Panic_iff (app : TodoApp) (r : Request) :
  serve decodeTitle app r = Panic <->
  Method r = "PUT" /\ Path r = "/api/tasks/toggle".
Proof.
  destruct (String.prefix "/api/tasks/" (Path r)) eqn:Hp.
  { rewrite (serve_subtree app r Hp). by apply api_tasks_subtree_Panic_iff. }
  unfold serve. rewrite Hp.
  destruct (String.eqb_spec (Path r) "/api/tasks") as [E|_].
  - split; [by intros ?%api_tasks_returns | intros [_ E']; congruence].
  - split; [done | intros [_ E]; by rewrite E in Hp].
Qed.

(** C8, at the request that breaks it. A PUT of [/api/tasks/toggle] is under
    the subtree and ends in [/toggle], so the closure picks the toggle
    handler; there [idStr] is the six bytes [toggle], the second slice
    expression has the upper bound [6 - 7 = -1], and the handler panics
    without writing a response. The delete handler answers the same shape,
    an empty ID segment, with 400. *)
Theorem toggle_without_id_panics (app : TodoApp) (body : string) :
  let r := {| Method := "PUT"; Path := "/api/tasks/toggle"; Body := body |} in
  choose r = Some toggle_handler /\
  GoString.slice_from (Path r) (GoString.len "/api/tasks/") = Some "toggle" /\
  GoString.slice_to "toggle" (GoString.len "toggle" - GoString.len "/toggle") = None /\
  ToggleTaskHandler app r = Panic /\
  api_tasks_subtree app r = Panic /\
  DeleteTaskHandler app {| Method := "DELETE"; Path := "/api/tasks/"; Body := body |}
  = Done (Error "Invalid task ID" StatusBadRequest) app.
Proof. repeat split. Qed.

End Dispatcher.

Lemma subtree_routing_witness :
  let r := {| Http.Method := "GET"; Http.Path := "/api/tasks/7/toggle"; Http.Body := "" |} in
  let app := NewTodoApp in
  (Http.choose r = Some Http.toggle_handler <-> Http.ends_with_toggle (Http.Path r)) /\
  (Http.choose r = Some Http.delete_handler <-> ~ Http.ends_with_toggle (Http.Path r)) /\
  (forall method body,
     Http.choose {| Http.Method := method; Http.Path := Http.Path r; Http.Body := body |}
     = Http.choose r) /\
  Http.api_tasks_subtree app r
  = match Http.choose r with
    | Some Http.toggle_handler => Http.ToggleTaskHandler app r
    | Some Http.delete_handler => Http.DeleteTaskHandler app r
    | None => Http.Panic
    end.
Proof.
  apply (subtree_routing NewTodoApp
           {| Http.Method := "GET"; Http.Path := "/api/tasks/7/toggle"; Http.Body := "" |}).
  reflexivity.
Defined.

(** ** [Atoi] reads back what [Itoa] writes *)

Section AtoiItoa.

Local Arguments String.append !_ _ / : simpl nomatch.

Implicit Types (s : string) (c : ascii) (n acc : Z).

Lemma digit_digit_char d : 0 <= d <= 9 -> Strconv.digit (Strconv.digit_char d) = Some d.
Proof.
  intros Hd.
  assert (Hc : d = 0 \/ d = 1 \/ d = 2 \/ d = 3 \/ d = 4 \/ d = 5 \/ d = 6 \/
               d = 7 \/ d = 8 \/ d = 9) by lia.
  repeat (destruct Hc as [->|Hc]; [reflexivity|]). by subst.
Qed.

Lemma digits_append s1 s2 acc :
  Strconv.digits (s1 +:+ s2) acc
  = match Strconv.digits s1 acc with
    | Some a => Strconv.digits s2 a
    | None => None
    end.
Proof.
  revert acc. induction s1 as [|c s1 IH]; intros acc; simpl; [done|].
  by destruct (Strconv.digit c).
Qed.

Lemma render_acc fuel n s :
  Strconv.render fuel n s = Strconv.render fuel n "" +:+ s.
Proof.
  revert n s. induction fuel as [|fuel IH]; intros n s; simpl; [done|].
  destruct (n <? 10); [done|].
  rewrite IH, (IH _ (String _ "")), append_assoc. done.
Qed.

Lemma render_nonempty fuel n : Strconv.render (S fuel) n "" <> "".
Proof.
  simpl. destruct (n <? 10); [done|]. rewrite render_acc.
  by destruct (Strconv.render fuel (n / 10) "").
Qed.

Lemma digits_render fuel n :
  0 <= n < 10 ^ Z.of_nat fuel -> Strconv.digits (Strconv.render fuel n "") 0 = Some n.
Proof.
  revert n. induction fuel as [|fuel IH]; intros n Hn.
  - simpl in *. f_equal. lia.
  - cbn [Strconv.render]. destruct (Z.ltb_spec n 10) as [Hlt|Hge].
    + cbn [Strconv.digits]. rewrite digit_digit_char by (rewrite Z.mod_small; lia).
      rewrite Z.mod_small by lia. f_equal.
    + rewrite render_acc, digits_append, IH.
      * cbn [Strconv.digits].
        rewrite digit_digit_char by (pose proof (Z.mod_pos_bound n 10); lia).
        f_equal. pose proof (Z.div_mod n 10). lia.
      * rewrite Nat2Z.inj_succ, Z.pow_succ_r in Hn by lia.
        split; [apply Z.div_pos; lia | apply Z.div_lt_upper_bound; lia].
Qed.

Lemma unsigned_render fuel n :
  0 <= n < 10 ^ Z.of_nat (S fuel) ->
  Strconv.unsigned (Strconv.render (S fuel) n "") = Some n.
Proof.
  intros Hn. pose proof (render_nonempty fuel n) as Hne.
  pose proof (digits_render (S fuel) n Hn) as Hd.
  by destruct (Strconv.render (S fuel) n "").
Qed.

(** A string of digits does not start with a sign. *)
Lemma unsigned_no_sign c s n :
  Strconv.unsigned (String c s) = Some n ->
  (c =? "-")%char = false /\ (c =? "+")%char = false.
Proof.
  cbn [Strconv.unsigned Strconv.digits]. intros Hd.
  split; apply Ascii.eqb_neq; intros ->; discriminate.
Qed.

Lemma in_range_spec n :
  GoInt.in_range n = true <-> GoInt.minInt <= n <= GoInt.maxInt.
Proof. unfold GoInt.in_range. rewrite andb_true_iff, !Z.leb_le. done. Qed.

Lemma Atoi_Itoa z :
  GoInt.minInt <= z <= GoInt.maxInt -> Strconv.Atoi (Strconv.Itoa z) = Some z.
Proof.
  intros Hz. pose proof (proj2 (in_range_spec z) Hz) as Hr.
  rewrite minInt_eq, maxInt_eq in Hz.
  unfold Strconv.Itoa. destruct (Z.ltb_spec z 0) as [Hneg|Hpos].
  - unfold Strconv.Atoi. cbn [Ascii.eqb Bool.eqb].
    rewrite unsigned_render by (change (10 ^ Z.of_nat 20) with 100000000000000000000; lia).
    cbn [fmap option_fmap option_map]. rewrite Z.opp_involutive. by rewrite Hr.
  - pose proof (unsigned_render 19 z) as Hu.
    destruct (Strconv.render 20 z "") as [|c s] eqn:Hs.
    { by destruct (render_nonempty 19 z). }
    specialize (Hu ltac:(change (10 ^ Z.of_nat 20) with 100000000000000000000; lia)).
    destruct (unsigned_no_sign c s z Hu) as [Hm Hp].
    unfold Strconv.Atoi. by rewrite Hm, Hp, Hu, Hr.
Qed.

End AtoiItoa.

(** ** Deleting an ID that no task can carry *)

Section DeleteNonPositive.

Import Http.
Local Open Scope string_scope.
Local Arguments String.append !_ _ / : simpl nomatch.

Implicit Types (app : TodoApp) (s p q : string) (c d : ascii).

(** A string that [Atoi] accepts ends in a decimal digit. *)
Lemma digits_last s acc n :
  Strconv.digits s acc = Some n ->
  s = "" \/ exists s' c, s = s' ++ String c "" /\ is_Some (Strconv.digit c).
Proof.
  revert acc. induction s as [|c s IH]; intros acc Hd; [by left|]. right.
  simpl in Hd. destruct (Strconv.digit c) as [dc|] eqn:Hc; [|discriminate].
  destruct (IH _ Hd) as [->|(s' & c' & -> & Hc')].
  - exists "", c. by rewrite Hc.
  - by exists (String c s'), c'.
Qed.

Lemma unsigned_last s n :
  Strconv.unsigned s = Some n ->
  exists s' c, s = s' ++ String c "" /\ is_Some (Strconv.digit c).
Proof.
  destruct s as [|c0 s]; [discriminate|]. intros Hd.
  by destruct (digits_last _ _ _ Hd) as [?|?].
Qed.

Lemma Atoi_last s id :
  Strconv.Atoi s = Some id ->
  exists s' c, s = s' ++ String c "" /\ is_Some (Strconv.digit c).
Proof.
  unfold Strconv.Atoi. destruct s as [|c0 s]; [discriminate|].
  destruct (c0 =? "-")%char.
  - destruct (Strconv.unsigned s) as [n|] eqn:Hu; [|discriminate]. intros _.
    destruct (unsigned_last _ _ Hu) as (s' & c & -> & Hc). by exists (String c0 s'), c.
  - destruct (c0 =? "+")%char.
    + destruct (Strconv.unsigned s) as [n|] eqn:Hu; [|discriminate]. intros _.
      destruct (unsigned_last _ _ Hu) as (s' & c & -> & Hc). by exists (String c0 s'), c.
    + destruct (Strconv.unsigned (String c0 s)) as [n|] eqn:Hu; [|discriminate].
      intros _. exact (unsigned_last _ _ Hu).
Qed.

Lemma append_last_inj p q c d : p ++ String c "" = q ++ String d "" -> c = d.
Proof.
  revert q. induction p as [|a p IH]; intros [|b q] E; simpl in E.
  - by injection E.
  - injection E as _ E. by destruct q.
  - injection E as _ E. by destruct p.
  - injection E as _ E. by apply (IH q).
Qed.

(** So a path whose ID segment parses does not end in [/toggle]. *)
Lemma parsed_not_toggle s id :
  Strconv.Atoi s = Some id -> ~ ends_with_toggle ("/api/tasks/" ++ s).
Proof.
  intros Ha [q Hq]. destruct (Atoi_last _ _ Ha) as (s' & c & -> & Hc).
  rewrite <- append_assoc in Hq.
  change (q ++ "/toggle") with (q ++ "/toggl" ++ "e") in Hq.
  rewrite <- (append_assoc q "/toggl" "e") in Hq.
  apply append_last_inj in Hq as ->. by destruct Hc.
Qed.

(** The delete handler's validation is [Atoi] and nothing more: whatever
    parses goes to the store, and the response carries the store's answer. *)
Lemma DeleteTaskHandler_parsed app s id body :
  Strconv.Atoi s = Some id ->
  DeleteTaskHandler app {| Method := "DELETE"; Path := "/api/tasks/" ++ s; Body := body |}
  = Done (JsonSuccess (DeleteTask app id).1) (DeleteTask app id).2.
Proof.
  intros Ha. unfold DeleteTaskHandler. cbn [Method Path MethodDelete String.eqb negb].
  replace (("DELETE" =? "DELETE")) with true by done. cbn [negb].
  rewrite slice_after_prefix, Ha. by destruct (DeleteTask app id).
Qed.

(** C10, as the handler and the store keep it. The delete handler's
    validation is [Atoi]: it accepts a string exactly when the string is a
    decimal numeral whose value fits [int]. In every state that a run with
    at most [maxInt = 2^63 - 1] creates reaches, every live task has a
    positive ID. So for every [id] with [minInt <= id <= 0] there is a
    request for it, [Itoa id] is one, and every DELETE of
    [/api/tasks/<a string that parses to id>] is routed to the delete
    handler, is not answered with 400, reaches [DeleteTask], which finds
    nothing and leaves the store alone, and is answered with
    [success = false]. *)
Theorem delete_nonpositive_id (os : list op) (id : Z) (body : string) :
  Z.of_nat (creates os) <= GoInt.maxInt ->
  GoInt.minInt <= id <= 0 ->
  let app := exec os NewTodoApp in
  Forall (fun t => 1 <= ID t) (tasks app) /\
  DeleteTask app id = (false, app) /\
  Strconv.Atoi (Strconv.Itoa id) = Some id /\
  forall idStr,
    Strconv.Atoi idStr = Some id ->
    let r := {| Method := "DELETE"; Path := "/api/tasks/" ++ idStr; Body := body |} in
    choose r = Some delete_handler /\
    DeleteTaskHandler app r = Done (JsonSuccess false) app /\
    api_tasks_subtree app r = Done (JsonSuccess false) app.
Proof.
  intros Hb Hid app.
  destruct (inv_exec os Hb) as (_ & Hr & _). fold app in Hr.
  assert (Hpos : Forall (fun t => 1 <= ID t) (tasks app)).
  { eapply Forall_impl; [exact Hr|]. intros t Ht. simpl in Ht. clear -Ht. lia. }
  assert (Hdel : DeleteTask app id = (false, app)).
  { apply DeleteTask_absent. unfold ids. rewrite list_elem_of_fmap.
    intros (t & -> & Hin). rewrite Forall_forall in Hpos.
    specialize (Hpos t Hin). clear -Hpos Hid. lia. }
  split; [exact Hpos|]. split; [exact Hdel|].
  split; [apply Atoi_Itoa; pose proof maxInt_eq; lia|].
  intros idStr Ha r.
  assert (Hh : DeleteTaskHandler app r = Done (JsonSuccess false) app).
  { unfold r. rewrite (DeleteTaskHandler_parsed app idStr id body Ha). by rewrite Hdel. }
  assert (Hp : String.prefix "/api/tasks/" (Path r) = true).
  { unfold r. cbn [Path]. clear. induction idStr; reflexivity. }
  destruct (choose_spec r Hp) as [_ Hd].
  pose proof (api_tasks_subtree_calls app r) as Hsub.
  assert (Hc : choose r = Some delete_handler).
  { apply Hd. unfold r. cbn [Path]. by apply (parsed_not_toggle idStr id). }
  split; [exact Hc|]. split; [exact Hh|].
  rewrite Hsub, Hc. exact Hh.
Qed.

Lemma delete_nonpositive_id_witness :
  let app := exec [Create "A"; Create "B"] NewTodoApp in
  Forall (fun t => 1 <= ID t) (tasks app) /\
  DeleteTask app (-5) = (false, app) /\
  Strconv.Atoi (Strconv.Itoa (-5)) = Some (-5) /\
  forall idStr,
    Strconv.Atoi idStr = Some (-5) ->
    let r := {| Method := "DELETE"; Path := "/api/tasks/" ++ idStr; Body := "" |} in
    choose r = Some delete_handler /\
    DeleteTaskHandler app r = Done (JsonSuccess false) app /\
    api_tasks_subtree app r = Done (JsonSuccess false) app.
Proof.
  apply (delete_nonpositive_id [Create "A"; Create "B"] (-5) "").
  - vm_compute. discriminate.
  - vm_compute. split; discriminate.
Defined.

(** C10 as stated fails twice. A numeral below [minInt] is a signed integer
    that [Atoi] does not accept: the DELETE for [-9223372036854775809] is
    answered with 400. And where [int] wraps, a live task has a negative ID:
    [maxInt - 1] rounds of create-then-delete and two more creates leave a
    task whose ID is [minInt = -2^63], and the DELETE for that ID is
    answered with [success = true]. *)
Lemma delete_nonpositive_id_fails :
  (let r := {| Method := "DELETE"; Path := "/api/tasks/-9223372036854775809";
               Body := "" |} in
   -9223372036854775809 <= 0 /\
   api_tasks_subtree NewTodoApp r
   = Done (Error "Invalid task ID" StatusBadRequest) NewTodoApp) /\
  (let os := (churn (Z.to_nat (GoInt.maxInt - 1)) 1 ++ [Create "x"; Create "y"])%list in
   let app := exec os NewTodoApp in
   let r := {| Method := "DELETE"; Path := "/api/tasks/-9223372036854775808";
               Body := "" |} in
   Strconv.Atoi "-9223372036854775808" = Some GoInt.minInt /\
   GoInt.minInt <= 0 /\
   ids app = [GoInt.maxInt; GoInt.minInt] /\
   api_tasks_subtree app r
   = Done (JsonSuccess true)
       {| tasks := [{| ID := GoInt.maxInt; Title := "x"; Completed := false |}];
          nextID := GoInt.minInt + 1 |}).
Proof.
  split.
  - split; [by apply Z.leb_le | reflexivity].
  - cbv zeta. rewrite exec_app, exec_churn_max.
    split; [reflexivity|]. split; [by apply Z.leb_le|]. split; reflexivity.
Qed.

End DeleteNonPositive.

(** * Further properties *)

(** ** The store's writers as a map and a filter

    In a store whose IDs are pairwise different, and every store a run
    reaches is one, the scan-and-stop loops of [ToggleTask] and [DeleteTask]
    act on the whole collection at once. *)

Section MapFilter.

Implicit Types (app : TodoApp) (id : Z) (t : Task) (l : list Task).

Lemma filter_none_match l id :
  Forall (fun u => ID u <> id) l -> filter (fun u => ID u <> id) l = l.
Proof.
  induction 1 as [|u l Hu _ IH]; [done|]. by rewrite filter_cons_True, IH.
Qed.

Lemma toggle_none_match l id :
  Forall (fun u => ID u <> id) l -> toggle_where id <$> l = l.
Proof.
  induction 1 as [|u l Hu _ IH]; [done|]. csimpl. rewrite IH. f_equal.
  unfold toggle_where. by rewrite decide_False.
Qed.

(** With pairwise different IDs, nothing after the first match matches. *)
Lemma unique_after l1 t l2 :
  NoDup (ID <$> (l1 ++ t :: l2)) -> Forall (fun u => ID u <> ID t) l2.
Proof.
  rewrite fmap_app, fmap_cons. intros Hd.
  apply NoDup_app in Hd as (_ & _ & Hd). apply NoDup_cons in Hd as [Hn _].
  apply Forall_forall. intros u Hu E. apply Hn. rewrite <- E.
  by apply list_elem_of_fmap_2.
Qed.

Lemma absent_none_match l id : (id ∉ ID <$> l) -> Forall (fun u => ID u <> id) l.
Proof.
  intros Hn. apply Forall_forall. intros u Hu E. apply Hn. rewrite <- E.
  by apply list_elem_of_fmap_2.
Qed.

Lemma DeleteTask_as_filter app id :
  NoDup (ids app) ->
  (DeleteTask app id).2
  = {| tasks := filter (fun t => ID t <> id) (tasks app); nextID := nextID app |}.
Proof.
  intros Hd. destruct (decide (id ∈ ids app)) as [Hin|Hnin].
  - destruct (found_split _ _ Hin) as (l1 & t & l2 & Hts & Ht & Hl1 & Hf).
    unfold DeleteTask. rewrite Hf. cbn [snd]. f_equal. rewrite Hts.
    rewrite take_app_length, cons_middle, app_assoc.
    rewrite drop_app_length' by (rewrite length_app; simpl; lia).
    unfold ids in Hd. rewrite Hts in Hd. apply unique_after in Hd. rewrite Ht in Hd.
    rewrite <- app_assoc, !filter_app, filter_cons_False by (simpl; tauto).
    by rewrite filter_nil, !filter_none_match.
  - rewrite (DeleteTask_absent _ _ Hnin). cbn [snd].
    rewrite filter_none_match by by apply absent_none_match.
    by destruct app.
Qed.

Lemma ToggleTask_as_map app id :
  NoDup (ids app) ->
  (ToggleTask app id).2
  = {| tasks := toggle_where id <$> tasks app; nextID := nextID app |}.
Proof.
  intros Hd. destruct (decide (id ∈ ids app)) as [Hin|Hnin].
  - destruct (found_split _ _ Hin) as (l1 & t & l2 & Hts & Ht & Hl1 & Hf).
    unfold ToggleTask. rewrite Hf. cbn [snd]. f_equal. rewrite Hts, alter_middle.
    unfold ids in Hd. rewrite Hts in Hd. apply unique_after in Hd. rewrite Ht in Hd.
    rewrite fmap_app, fmap_cons, !toggle_none_match by done.
    unfold toggle_where. by rewrite decide_True.
  - rewrite (ToggleTask_absent _ _ Hnin). cbn [snd].
    rewrite toggle_none_match by by apply absent_none_match.
    by destruct app.
Qed.

Lemma ids_toggle_where l id : ID <$> (toggle_where id <$> l) = ID <$> l.
Proof.
  rewrite <- list_fmap_compose. apply list_fmap_ext. intros _ t _.
  unfold toggle_where. simpl. by destruct (decide _).
Qed.

Lemma NoDup_ids_ToggleTask app id : NoDup (ids app) -> NoDup (ids (ToggleTask app id).2).
Proof.
  intros Hd. rewrite ToggleTask_as_map by done. unfold ids. cbn [tasks].
  by rewrite ids_toggle_where.
Qed.

Lemma NoDup_ids_DeleteTask app id : NoDup (ids app) -> NoDup (ids (DeleteTask app id).2).
Proof.
  intros Hd. rewrite DeleteTask_as_filter by done. unfold ids. cbn [tasks].
  eapply sublist_NoDup; [exact Hd|]. apply fmap_sublist, sublist_filter.
Qed.

Lemma filter_toggle_where l id id' :
  filter (fun t => ID t <> id') (toggle_where id <$> l)
  = toggle_where id <$> filter (fun t => ID t <> id') l.
Proof.
  induction l as [|t l IH]; [done|]. csimpl.
  assert (E : ID (toggle_where id t) = ID t).
  { unfold toggle_where. by destruct (decide _). }
  destruct (decide (ID t = id')) as [Ht|Ht].
  - rewrite !filter_cons_False by (rewrite ?E; tauto). exact IH.
  - rewrite !filter_cons_True by (rewrite ?E; tauto). csimpl. by rewrite IH.
Qed.

Lemma toggle_where_comm id id' t :
  toggle_where id (toggle_where id' t) = toggle_where id' (toggle_where id t).
Proof.
  unfold toggle_where.
  destruct (decide (ID t = id')) as [H'|H'], (decide (ID t = id)) as [H|H];
    cbn [flip ID]; repeat case_decide; done || congruence.
Qed.

End MapFilter.

Section StoreAlgebra.

Implicit Types (app : TodoApp) (id : Z) (t : Task) (l : list Task).

Lemma ToggleTask_found app id : (ToggleTask app id).1 = true <-> id ∈ ids app.
Proof.
  unfold ToggleTask. rewrite <- (range_find_is_Some id (tasks app) 0).
  destruct (range_find id (tasks app) 0); cbn [fst]; split; done.
Qed.

Lemma DeleteTask_found app id : (DeleteTask app id).1 = true <-> id ∈ ids app.
Proof.
  unfold DeleteTask. rewrite <- (range_find_is_Some id (tasks app) 0).
  destruct (range_find id (tasks app) 0); cbn [fst]; split; done.
Qed.

Lemma ids_after_ToggleTask app id : NoDup (ids app) -> ids (ToggleTask app id).2 = ids app.
Proof.
  intros Hd. rewrite ToggleTask_as_map by done. unfold ids. cbn [tasks].
  apply ids_toggle_where.
Qed.

Lemma ids_after_DeleteTask app id id' :
  NoDup (ids app) -> id' ∈ ids (DeleteTask app id).2 <-> id' ∈ ids app /\ id' <> id.
Proof.
  intros Hd. rewrite DeleteTask_as_filter by done. unfold ids. cbn [tasks].
  rewrite !list_elem_of_fmap. split.
  - intros (t & -> & Ht). apply list_elem_of_filter in Ht as [Hne Hin]. eauto.
  - intros [(t & -> & Hin) Hne]. exists t. split; [done|].
    by apply list_elem_of_filter.
Qed.

Lemma ToggleTask_back app id : (ToggleTask (ToggleTask app id).2 id).2 = app.
Proof.
  destruct (decide (id ∈ ids app)) as [Hin|Hnin].
  - destruct (found_split _ _ Hin) as (l1 & t & l2 & Hts & Ht & Hl1 & Hf).
    destruct app as [ts n]. cbn [tasks] in *. subst ts.
    unfold ToggleTask. cbn [tasks nextID]. rewrite Hf. cbn [tasks nextID snd].
    rewrite alter_middle.
    rewrite (range_find_app id l1 (flip t) l2 0 Hl1 Ht). cbn [tasks nextID plus snd].
    by rewrite alter_middle, flip_flip.
  - rewrite (ToggleTask_absent _ _ Hnin). cbn [snd].
    by rewrite (ToggleTask_absent _ _ Hnin).
Qed.

Lemma exec_cons o os app : exec (o :: os) app = exec os (step app o).
Proof. reflexivity. Qed.

Lemma exec_deletes (ds : list Z) app :
  NoDup (ids app) ->
  exec (Delete <$> ds) app
  = {| tasks := filter (fun t => ID t ∉ ds) (tasks app); nextID := nextID app |}.
Proof.
  revert app. induction ds as [|d ds IH]; intros app Hd.
  - destruct app as [ts n]. cbn [fmap list_fmap exec foldl tasks nextID]. f_equal.
    clear Hd. symmetry. induction ts as [|t ts IHts]; [done|].
    rewrite filter_cons_True by apply not_elem_of_nil. by f_equal.
  - rewrite fmap_cons, exec_cons. cbn [step].
    rewrite IH by by apply NoDup_ids_DeleteTask.
    rewrite DeleteTask_as_filter by done. cbn [tasks nextID]. f_equal.
    rewrite list_filter_filter. apply list_filter_iff. intros t.
    rewrite not_elem_of_cons. tauto.
Qed.

End StoreAlgebra.

(** X1. In a store whose IDs are pairwise different, [DeleteTask id] leaves
    exactly the tasks whose ID is not [id], in their order, and the counter;
    the id is then gone, so deleting or toggling it again returns false and
    changes nothing. *)
Theorem DeleteTask_then_gone (app : TodoApp) (id : Z) :
  NoDup (ids app) ->
  let app' := (DeleteTask app id).2 in
  tasks app' = filter (fun t => ID t <> id) (tasks app) /\
  nextID app' = nextID app /\
  (id ∉ ids app') /\
  DeleteTask app' id = (false, app') /\
  ToggleTask app' id = (false, app').
Proof.
  intros Hd app'.
  assert (Hgone : id ∉ ids app').
  { intros Hin. apply (ids_after_DeleteTask app id id Hd) in Hin as [_ Hne]. done. }
  unfold app' in *. rewrite DeleteTask_as_filter in * by done.
  split; [done|]. split; [done|]. split; [exact Hgone|].
  split; [by apply DeleteTask_absent | by apply ToggleTask_absent].
Qed.

Lemma DeleteTask_then_gone_witness :
  let app := exec [Create "1"; Create "2"; Create "3"; Toggle 3] NewTodoApp in
  let app' := (DeleteTask app 2).2 in
  tasks app' = filter (fun t => ID t <> 2) (tasks app) /\
  nextID app' = nextID app /\
  (2 ∉ ids app') /\
  DeleteTask app' 2 = (false, app') /\
  ToggleTask app' 2 = (false, app').
Proof.
  apply (DeleteTask_then_gone
           (exec [Create "1"; Create "2"; Create "3"; Toggle 3] NewTodoApp) 2).
  compute_done.
Defined.

(** X2. In a store whose IDs are pairwise different, the writers commute:
    two toggles, a toggle and a delete, or two deletes leave the same store
    in either order; and when the two IDs differ, each call also returns
    what it would have returned had it run first. *)
Theorem writers_commute (app : TodoApp) (id1 id2 : Z) :
  NoDup (ids app) ->
  id1 <> id2 ->
  (ToggleTask (ToggleTask app id1).2 id2).2 = (ToggleTask (ToggleTask app id2).2 id1).2 /\
  (DeleteTask (ToggleTask app id1).2 id2).2 = (ToggleTask (DeleteTask app id2).2 id1).2 /\
  (DeleteTask (DeleteTask app id1).2 id2).2 = (DeleteTask (DeleteTask app id2).2 id1).2 /\
  (ToggleTask (ToggleTask app id1).2 id2).1 = (ToggleTask app id2).1 /\
  (DeleteTask (ToggleTask app id1).2 id2).1 = (DeleteTask app id2).1 /\
  (ToggleTask (DeleteTask app id2).2 id1).1 = (ToggleTask app id1).1 /\
  (DeleteTask (DeleteTask app id1).2 id2).1 = (DeleteTask app id2).1.
Proof.
  intros Hd Hne.
  pose proof (NoDup_ids_ToggleTask app id1 Hd) as Ht1.
  pose proof (NoDup_ids_ToggleTask app id2 Hd) as Ht2.
  pose proof (NoDup_ids_DeleteTask app id1 Hd) as Hd1.
  pose proof (NoDup_ids_DeleteTask app id2 Hd) as Hd2.
  split; [|split; [|split; [|split; [|split; [|split]]]]].
  - rewrite !ToggleTask_as_map by done. cbn [tasks nextID]. f_equal.
    rewrite <- !list_fmap_compose. apply list_fmap_ext. intros _ t _.
    apply toggle_where_comm.
  - rewrite DeleteTask_as_filter by done.
    rewrite (ToggleTask_as_map (DeleteTask app id2).2) by done.
    rewrite ToggleTask_as_map, DeleteTask_as_filter by done. cbn [tasks nextID].
    f_equal. apply filter_toggle_where.
  - rewrite !DeleteTask_as_filter by done. cbn [tasks nextID]. f_equal.
    rewrite !list_filter_filter. apply list_filter_iff. tauto.
  - apply Bool.eq_true_iff_eq. rewrite !ToggleTask_found.
    by rewrite ids_after_ToggleTask.
  - apply Bool.eq_true_iff_eq. rewrite !DeleteTask_found.
    by rewrite ids_after_ToggleTask.
  - apply Bool.eq_true_iff_eq. rewrite !ToggleTask_found.
    rewrite ids_after_DeleteTask by done.
    split; [tauto | intros; split; [done | congruence]].
  - apply Bool.eq_true_iff_eq. rewrite !DeleteTask_found.
    rewrite ids_after_DeleteTask by done.
    split; [tauto | intros; split; [done | congruence]].
Qed.

Lemma writers_commute_witness :
  let app := exec [Create "1"; Create "2"; Create "3"] NewTodoApp in
  (ToggleTask (ToggleTask app 1).2 3).2 = (ToggleTask (ToggleTask app 3).2 1).2 /\
  (DeleteTask (ToggleTask app 1).2 3).2 = (ToggleTask (DeleteTask app 3).2 1).2 /\
  (DeleteTask (DeleteTask app 1).2 3).2 = (DeleteTask (DeleteTask app 3).2 1).2 /\
  (ToggleTask (ToggleTask app 1).2 3).1 = (ToggleTask app 3).1 /\
  (DeleteTask (ToggleTask app 1).2 3).1 = (DeleteTask app 3).1 /\
  (ToggleTask (DeleteTask app 3).2 1).1 = (ToggleTask app 1).1 /\
  (DeleteTask (DeleteTask app 1).2 3).1 = (DeleteTask app 3).1.
Proof.
  apply (writers_commute (exec [Create "1"; Create "2"; Create "3"] NewTodoApp) 1 3).
  - compute_done.
  - discriminate.
Defined.

(** X3. In a store whose IDs are pairwise different, deleting a list of IDs
    one after the other leaves exactly the tasks whose ID is not in the
    list, so the outcome does not depend on the order of the deletes. *)
Theorem deletes_any_order (app : TodoApp) (ds ds' : list Z) :
  NoDup (ids app) ->
  ds ≡ₚ ds' ->
  tasks (exec (Delete <$> ds) app) = filter (fun t => ID t ∉ ds) (tasks app) /\
  nextID (exec (Delete <$> ds) app) = nextID app /\
  exec (Delete <$> ds) app = exec (Delete <$> ds') app.
Proof.
  intros Hd Hp. rewrite !exec_deletes by done. cbn [tasks nextID].
  split; [done|]. split; [done|]. f_equal.
  apply list_filter_iff. intros t. by rewrite Hp.
Qed.

Lemma deletes_any_order_witness :
  let app := exec [Create "1"; Create "2"; Create "3"; Create "4"] NewTodoApp in
  tasks (exec (Delete <$> [1; 3; 9]) app)
  = filter (fun t => ID t ∉ [1; 3; 9]) (tasks app) /\
  nextID (exec (Delete <$> [1; 3; 9]) app) = nextID app /\
  exec (Delete <$> [1; 3; 9]) app = exec (Delete <$> [9; 3; 1]) app.
Proof.
  apply (deletes_any_order
           (exec [Create "1"; Create "2"; Create "3"; Create "4"] NewTodoApp)
           [1; 3; 9] [9; 3; 1]).
  - compute_done.
  - compute_done.
Defined.

(** X4. Any number of [ToggleTask] calls for one ID: an even number leaves
    the store exactly as it was, an odd number leaves it as one call does.
    No task is added or lost on the way. *)
Theorem toggles_parity (app : TodoApp) (id : Z) (n : nat) :
  exec (replicate n (Toggle id)) app
  = (if Nat.even n then app else (ToggleTask app id).2) /\
  length (tasks (exec (replicate n (Toggle id)) app)) = length (tasks app).
Proof.
  assert (He : forall k, exec (replicate k (Toggle id)) app
                 = if Nat.even k then app else (ToggleTask app id).2).
  { intros k. induction k as [|k IH]; [done|].
    rewrite replicate_S_end, exec_snoc, IH. cbn [step].
    rewrite Nat.even_succ, <- Nat.negb_even.
    destruct (Nat.even k); cbn [negb]; [done | apply ToggleTask_back]. }
  split; [apply He|]. rewrite He.
  destruct (Nat.even n); [done|]. unfold ToggleTask.
  destruct (range_find id (tasks app) 0); cbn [snd tasks]; [|done].
  apply length_alter.
Qed.

(** X5. The IDs that the creates of a run hand out are 1, 2, 3, ... without
    a gap, whatever is toggled or deleted in between, for as long as the
    run has at most [maxInt] creates. *)
Theorem issued_consecutive (os : list op) :
  Z.of_nat (creates os) <= GoInt.maxInt ->
  issued os NewTodoApp = seqZ 1 (Z.of_nat (creates os)).
Proof.
  intros Hb. rewrite issued_exec by done. unfold seqZ.
  rewrite Nat2Z.id. apply list_fmap_ext. intros _ k _. simpl. lia.
Qed.

Lemma issued_consecutive_witness :
  issued [Create "A"; Delete 1; Create "B"; Toggle 2; Create "C"] NewTodoApp
  = seqZ 1 (Z.of_nat (creates [Create "A"; Delete 1; Create "B"; Toggle 2; Create "C"])).
Proof.
  apply (issued_consecutive [Create "A"; Delete 1; Create "B"; Toggle 2; Create "C"]).
  vm_compute. discriminate.
Defined.

(** ** Further properties of the dispatcher *)

Section Requests.

Import Http.
Local Open Scope string_scope.
Local Arguments String.append !_ _ / : simpl nomatch.

Variable decodeTitle : string -> option string.

Implicit Types (app : TodoApp) (r : Request) (p q seg : string) (resp : Response).

Lemma GetTasksHandler_effect app r resp app' :
  GetTasksHandler app r = Done resp app' -> app' = app /\ reports_no_write resp.
Proof.
  unfold GetTasksHandler. destruct (negb _); cbn [GetTasks];
    intros [= <- <-]; by repeat split.
Qed.

Lemma AddTaskHandler_effect app r resp app' :
  AddTaskHandler decodeTitle app r = Done resp app' ->
  (app' = app /\ reports_no_write resp) \/
  (Method r = "POST" /\
   exists title, decodeTitle (Body r) = Some title /\ title <> "" /\
                 resp = JsonCreated (AddTask app title).1 /\
                 app' = (AddTask app title).2).
Proof.
  unfold AddTaskHandler, MethodPost.
  destruct (String.eqb_spec (Method r) "POST") as [Hm|Hm]; cbn [negb];
    [|intros [= <- <-]; left; by repeat split].
  destruct (decodeTitle (Body r)) as [title|] eqn:Hd;
    [|intros [= <- <-]; left; by repeat split].
  destruct (String.eqb_spec title "") as [Ht|Ht];
    [intros [= <- <-]; left; by repeat split|].
  cbn [AddTask]. intros [= <- <-]. right. split; [done|]. by exists title.
Qed.

Lemma ToggleTaskHandler_effect app r resp app' :
  ToggleTaskHandler app r = Done resp app' ->
  (app' = app /\ reports_no_write resp) \/
  (Method r = "PUT" /\
   exists id, id ∈ ids app /\ resp = JsonSuccess true /\ app' = (ToggleTask app id).2).
Proof.
  unfold ToggleTaskHandler, MethodPut.
  destruct (String.eqb_spec (Method r) "PUT") as [Hm|Hm]; cbn [negb];
    [|intros [= <- <-]; left; by repeat split].
  destruct (GoString.slice_from _ _) as [s1|]; [|discriminate].
  destruct (GoString.slice_to _ _) as [s2|]; [|discriminate].
  destruct (Strconv.Atoi s2) as [id|]; [|intros [= <- <-]; left; by repeat split].
  destruct (ToggleTask app id) as [b app1] eqn:Ht. intros [= <- <-].
  destruct b.
  - right. split; [done|]. exists id. rewrite Ht. split; [|done].
    apply ToggleTask_found. by rewrite Ht.
  - left. split; [|by repeat split].
    destruct (decide (id ∈ ids app)) as [Hin|Hnin].
    + apply ToggleTask_found in Hin. rewrite Ht in Hin. discriminate.
    + rewrite (ToggleTask_absent _ _ Hnin) in Ht. congruence.
Qed.

Lemma DeleteTaskHandler_effect app r resp app' :
  DeleteTaskHandler app r = Done resp app' ->
  (app' = app /\ reports_no_write resp) \/
  (Method r = "DELETE" /\
   exists id, id ∈ ids app /\ resp = JsonSuccess true /\ app' = (DeleteTask app id).2).
Proof.
  unfold DeleteTaskHandler, MethodDelete.
  destruct (String.eqb_spec (Method r) "DELETE") as [Hm|Hm]; cbn [negb];
    [|intros [= <- <-]; left; by repeat split].
  destruct (GoString.slice_from _ _) as [s1|]; [|discriminate].
  destruct (Strconv.Atoi s1) as [id|]; [|intros [= <- <-]; left; by repeat split].
  destruct (DeleteTask app id) as [b app1] eqn:Ht. intros [= <- <-].
  destruct b.
  - right. split; [done|]. exists id. rewrite Ht. split; [|done].
    apply DeleteTask_found. by rewrite Ht.
  - left. split; [|by repeat split].
    destruct (decide (id ∈ ids app)) as [Hin|Hnin].
    + apply DeleteTask_found in Hin. rewrite Ht in Hin. discriminate.
    + rewrite (DeleteTask_absent _ _ Hnin) in Ht. congruence.
Qed.

(** The write that a request performs, if any. *)
Lemma serve_effect app r resp app' :
  serve decodeTitle app r = Done resp app' ->
  (app' = app /\ reports_no_write resp) \/
  (Method r = "POST" /\ Path r = "/api/tasks" /\
   exists title, decodeTitle (Body r) = Some title /\ title <> "" /\
                 resp = JsonCreated (AddTask app title).1 /\
                 app' = (AddTask app title).2) \/
  (Method r = "PUT" /\ String.prefix "/api/tasks/" (Path r) = true /\
   ends_with_toggle (Path r) /\
   exists id, id ∈ ids app /\ resp = JsonSuccess true /\ app' = (ToggleTask app id).2) \/
  (Method r = "DELETE" /\ String.prefix "/api/tasks/" (Path r) = true /\
   ~ ends_with_toggle (Path r) /\
   exists id, id ∈ ids app /\ resp = JsonSuccess true /\ app' = (DeleteTask app id).2).
Proof.
  unfold serve. destruct (String.eqb_spec (Path r) "/api/tasks") as [Hp|_].
  { unfold api_tasks. destruct (Method r =? MethodGet).
    - intros H%GetTasksHandler_effect. by left.
    - destruct (Method r =? MethodPost).
      + intros [H|[Hm H]]%AddTaskHandler_effect; [by left|]. right. left. eauto.
      + intros [= <- <-]. left. by repeat split. }
  destruct (String.prefix "/api/tasks/" (Path r)) eqn:Hp;
    [|intros [= <- <-]; left; by repeat split].
  destruct (choose_spec r Hp) as [Ht Hd]. rewrite api_tasks_subtree_calls.
  destruct (choose r) as [[|]|]; [| |discriminate].
  - intros [H|[Hm H]]%ToggleTaskHandler_effect; [by left|].
    right. right. left. split; [done|]. split; [done|]. split; [by apply Ht | done].
  - intros [H|[Hm H]]%DeleteTaskHandler_effect; [by left|].
    right. right. right. split; [done|]. split; [done|]. split; [by apply Hd | done].
Qed.

(** X6. What one request can do to the store. A request changes the store
    only as a POST of [/api/tasks] with a decodable, non-empty title (one
    [AddTask]), as a PUT under [/api/tasks/] whose path ends in [/toggle]
    (one [ToggleTask] of a live ID), or as a DELETE under [/api/tasks/]
    whose path does not (one [DeleteTask] of a live ID), and the response
    then reports the write. After every other response (an error, the
    list, [success = false], a static file) the store is exactly as it
    was. *)
Theorem request_effect app r resp app' :
  serve decodeTitle app r = Done resp app' ->
  (app' = app /\ reports_no_write resp) \/
  (Method r = "POST" /\ Path r = "/api/tasks" /\
   exists title, decodeTitle (Body r) = Some title /\ title <> "" /\
                 resp = JsonCreated (AddTask app title).1 /\
                 app' = (AddTask app title).2) \/
  (Method r = "PUT" /\ String.prefix "/api/tasks/" (Path r) = true /\
   ends_with_toggle (Path r) /\
   exists id, id ∈ ids app /\ resp = JsonSuccess true /\ app' = (ToggleTask app id).2) \/
  (Method r = "DELETE" /\ String.prefix "/api/tasks/" (Path r) = true /\
   ~ ends_with_toggle (Path r) /\
   exists id, id ∈ ids app /\ resp = JsonSuccess true /\ app' = (DeleteTask app id).2).
Proof. apply serve_effect. Qed.

(** X7. The dispatcher keeps every title in the store non-empty, which the
    store alone does not: if no live task has an empty title before a
    request, none has after it. *)
Theorem request_keeps_titles app r resp app' :
  Forall (fun t => Title t <> "") (tasks app) ->
  serve decodeTitle app r = Done resp app' ->
  Forall (fun t => Title t <> "") (tasks app').
Proof.
  intros Hok Hs.
  destruct (serve_effect app r resp app' Hs)
    as [[-> _]|[(_ & _ & title & _ & Ht & _ & ->)
               |[(_ & _ & _ & id & _ & _ & ->)|(_ & _ & _ & id & _ & _ & ->)]]];
    [done| | |].
  - cbn [AddTask snd tasks]. apply Forall_app. split; [done|].
    by constructor.
  - unfold ToggleTask. destruct (range_find id (tasks app) 0) as [i|]; [|done].
    cbn [snd tasks]. apply Forall_forall. intros t Hin.
    apply list_elem_of_lookup in Hin as [j Hj].
    rewrite Forall_forall in Hok.
    destruct (decide (i = j)) as [->|Hne].
    + rewrite list_lookup_alter_eq in Hj.
      destruct (tasks app !! j) as [u|] eqn:Hu; [|discriminate].
      injection Hj as <-. cbn [flip Title]. apply Hok.
      apply list_elem_of_lookup. eauto.
    + rewrite list_lookup_alter_ne in Hj by done. apply Hok.
      apply list_elem_of_lookup. eauto.
  - unfold DeleteTask. destruct (range_find id (tasks app) 0) as [i|]; [|done].
    cbn [snd tasks]. rewrite <- delete_take_drop.
    rewrite Forall_forall in Hok |- *. intros t Hin. apply Hok.
    eapply elem_of_sublist; [exact Hin | apply sublist_delete].
Qed.

End Requests.

Lemma request_effect_witness :
  let app := exec [Create "A"] NewTodoApp in
  let r := {| Http.Method := "DELETE"; Http.Path := "/api/tasks/1"; Http.Body := "" |} in
  let resp := Http.JsonSuccess true in
  let app' := {| tasks := []; nextID := 2 |} in
  (app' = app /\ reports_no_write resp) \/
  (Http.Method r = "POST" /\ Http.Path r = "/api/tasks" /\
   exists title, Some (Http.Body r) = Some title /\ title <> "" /\
                 resp = Http.JsonCreated (AddTask app title).1 /\
                 app' = (AddTask app title).2) \/
  (Http.Method r = "PUT" /\ String.prefix "/api/tasks/" (Http.Path r) = true /\
   Http.ends_with_toggle (Http.Path r) /\
   exists id, id ∈ ids app /\ resp = Http.JsonSuccess true /\ app' = (ToggleTask app id).2) \/
  (Http.Method r = "DELETE" /\ String.prefix "/api/tasks/" (Http.Path r) = true /\
   ~ Http.ends_with_toggle (Http.Path r) /\
   exists id, id ∈ ids app /\ resp = Http.JsonSuccess true /\ app' = (DeleteTask app id).2).
Proof.
  apply (request_effect Some (exec [Create "A"] NewTodoApp)
           {| Http.Method := "DELETE"; Http.Path := "/api/tasks/1"; Http.Body := "" |}).
  reflexivity.
Defined.

Lemma request_keeps_titles_witness :
  let app := exec [Create "A"] NewTodoApp in
  Forall (fun t => Title t <> "") (tasks (AddTask app "B").2).
Proof.
  apply (request_keeps_titles Some (exec [Create "A"] NewTodoApp)
           {| Http.Method := "POST"; Http.Path := "/api/tasks"; Http.Body := "B" |}
           (Http.JsonCreated (AddTask (exec [Create "A"] NewTodoApp) "B").1)).
  - repeat constructor; discriminate.
  - reflexivity.
Defined.

(** ** The ID segment of a path *)

Section Segments.

Import Http.
Local Open Scope string_scope.
Local Arguments String.append !_ _ / : simpl nomatch.

Implicit Types (app : TodoApp) (r : Request) (p q seg pre suf : string).

Lemma slice_in_range s (lo hi : Z) :
  (0 <= lo <= hi)%Z -> (hi <= GoString.len s)%Z ->
  GoString.slice s lo hi = Some (substring (Z.to_nat lo) (Z.to_nat (hi - lo)) s).
Proof.
  intros [H1 H2] H3. unfold GoString.slice.
  apply Z.leb_le in H1, H2, H3. by rewrite H1, H2, H3.
Qed.

Lemma slice_out_of_range s (lo hi : Z) :
  (lo < 0 \/ hi < lo \/ GoString.len s < hi)%Z -> GoString.slice s lo hi = None.
Proof.
  intros H. unfold GoString.slice.
  destruct (Z.leb_spec 0 lo), (Z.leb_spec lo hi), (Z.leb_spec hi (GoString.len s));
    cbn [andb]; try done; lia.
Qed.

Lemma substring_append_l p q : substring 0 (String.length p) (p ++ q) = p.
Proof.
  induction p as [|c p IH]; simpl; [by destruct q | by f_equal].
Qed.

(** [(pre ++ q)[len(pre):]] and [(q ++ suf)[:len(q ++ suf) - len(suf)]] *)
Lemma slice_from_append pre q :
  GoString.slice_from (pre ++ q) (GoString.len pre) = Some q.
Proof.
  unfold GoString.slice_from. rewrite slice_in_range.
  - unfold GoString.len. rewrite length_append. f_equal.
    replace (Z.to_nat (Z.of_nat (String.length pre + String.length q)
                       - Z.of_nat (String.length pre))) with (String.length q) by lia.
    rewrite Nat2Z.id. apply substring_append_r.
  - unfold GoString.len. rewrite length_append. lia.
  - lia.
Qed.

Lemma slice_to_append q suf :
  GoString.slice_to (q ++ suf) (GoString.len (q ++ suf) - GoString.len suf) = Some q.
Proof.
  unfold GoString.slice_to. rewrite slice_in_range.
  - unfold GoString.len. rewrite length_append. f_equal.
    replace (Z.to_nat (Z.of_nat (String.length q + String.length suf)
                       - Z.of_nat (String.length suf) - 0)) with (String.length q) by lia.
    apply substring_append_l.
  - unfold GoString.len. rewrite length_append. lia.
  - unfold GoString.len. lia.
Qed.

(** The handlers cut the ID segment out by position: [ToggleTaskHandler]
    drops 11 bytes in front and 7 at the end, [DeleteTaskHandler] 11 in
    front, whatever those bytes are. *)
Lemma ToggleTaskHandler_segment app pre seg suf body :
  String.length pre = 11%nat -> String.length suf = 7%nat ->
  ToggleTaskHandler app {| Method := "PUT"; Path := pre ++ seg ++ suf; Body := body |}
  = match Strconv.Atoi seg with
    | Some id => Done (JsonSuccess (ToggleTask app id).1) (ToggleTask app id).2
    | None => Done (Error "Invalid task ID" StatusBadRequest) app
    end.
Proof.
  intros Hpre Hsuf. unfold ToggleTaskHandler. cbn [Method Path MethodPut].
  replace ("PUT" =? "PUT") with true by done. cbn [negb].
  replace (GoString.len "/api/tasks/") with (GoString.len pre)
    by (unfold GoString.len; by rewrite Hpre).
  rewrite slice_from_append.
  replace (GoString.len "/toggle") with (GoString.len suf)
    by (unfold GoString.len; by rewrite Hsuf).
  rewrite slice_to_append.
  destruct (Strconv.Atoi seg) as [id|]; [|done]. by destruct (ToggleTask app id).
Qed.

Lemma DeleteTaskHandler_segment app pre seg body :
  String.length pre = 11%nat ->
  DeleteTaskHandler app {| Method := "DELETE"; Path := pre ++ seg; Body := body |}
  = match Strconv.Atoi seg with
    | Some id => Done (JsonSuccess (DeleteTask app id).1) (DeleteTask app id).2
    | None => Done (Error "Invalid task ID" StatusBadRequest) app
    end.
Proof.
  intros Hpre. unfold DeleteTaskHandler. cbn [Method Path MethodDelete].
  replace ("DELETE" =? "DELETE") with true by done. cbn [negb].
  replace (GoString.len "/api/tasks/") with (GoString.len pre)
    by (unfold GoString.len; by rewrite Hpre).
  rewrite slice_from_append.
  destruct (Strconv.Atoi seg) as [id|]; [|done]. by destruct (DeleteTask app id).
Qed.

Lemma toggle_path_routed seg r :
  Path r = "/api/tasks/" ++ seg ++ "/toggle" ->
  String.prefix "/api/tasks/" (Path r) = true /\ choose r = Some toggle_handler.
Proof.
  intros Hp.
  assert (Hpre : String.prefix "/api/tasks/" (Path r) = true).
  { rewrite Hp. clear. induction seg; reflexivity. }
  split; [done|]. apply (choose_spec r Hpre). rewrite Hp.
  exists ("/api/tasks/" ++ seg). by rewrite append_assoc.
Qed.

(** A segment with a [/] in it does not parse. *)
Lemma Atoi_slash p q : Strconv.Atoi (p ++ String "/" q) = None.
Proof.
  destruct (Strconv.Atoi (p ++ String "/" q)) as [id|] eqn:Ha; [|done]. exfalso.
  assert (Hu : forall p' n, Strconv.unsigned (p' ++ String "/" q) <> Some n).
  { intros p' n Hu.
    assert (Hd : Strconv.digits (p' ++ String "/" q) 0 = Some n).
    { destruct p'; exact Hu. }
    rewrite digits_append in Hd.
    destruct (Strconv.digits p' 0); [|discriminate]. discriminate. }
  unfold Strconv.Atoi in Ha. destruct p as [|c p]; cbn [String.append] in Ha.
  - cbn in Ha. discriminate.
  - destruct (c =? "-")%char.
    + destruct (Strconv.unsigned (p ++ String "/" q)) as [n|] eqn:E; [|discriminate].
      by apply Hu in E.
    + destruct (c =? "+")%char.
      * destruct (Strconv.unsigned (p ++ String "/" q)) as [n|] eqn:E; [|discriminate].
        by apply Hu in E.
      * destruct (Strconv.unsigned (String c (p ++ String "/" q))) as [n|] eqn:E;
          [|discriminate].
        by apply (Hu (String c p)) in E.
Qed.

Lemma put_toggle_calls app seg id body :
  Strconv.Atoi seg = Some id ->
  api_tasks_subtree app
    {| Method := "PUT"; Path := "/api/tasks/" ++ seg ++ "/toggle"; Body := body |}
  = Done (JsonSuccess (ToggleTask app id).1) (ToggleTask app id).2.
Proof.
  intros Ha. set (r := {| Method := "PUT"; Path := _; Body := body |}).
  destruct (toggle_path_routed seg r eq_refl) as [_ Hc].
  rewrite api_tasks_subtree_calls, Hc. unfold r.
  rewrite (ToggleTaskHandler_segment app "/api/tasks/" seg "/toggle" body) by done.
  by rewrite Ha.
Qed.

Lemma delete_calls app seg id body :
  Strconv.Atoi seg = Some id ->
  api_tasks_subtree app
    {| Method := "DELETE"; Path := "/api/tasks/" ++ seg; Body := body |}
  = Done (JsonSuccess (DeleteTask app id).1) (DeleteTask app id).2.
Proof.
  intros Ha. set (r := {| Method := "DELETE"; Path := _; Body := body |}).
  assert (Hp : String.prefix "/api/tasks/" (Path r) = true).
  { unfold r. cbn [Path]. clear. induction seg; reflexivity. }
  destruct (choose_spec r Hp) as [_ Hd].
  rewrite api_tasks_subtree_calls, (proj2 Hd (parsed_not_toggle seg id Ha)).
  unfold r. by rewrite (DeleteTaskHandler_parsed app seg id body Ha).
Qed.

(** X8. A PUT of [/api/tasks/<n>/toggle], as the page's script sends it,
    toggles exactly task [n] and reports whether it exists: for every [int]
    [n] written in decimal, and more generally for every segment that
    [Atoi] parses to [n], the response is [success = (ToggleTask n).1] and
    the store is what [ToggleTask n] leaves. *)
Theorem toggle_request app (id : Z) body :
  (GoInt.minInt <= id <= GoInt.maxInt)%Z ->
  Strconv.Atoi (Strconv.Itoa id) = Some id /\
  forall seg,
    Strconv.Atoi seg = Some id ->
    api_tasks_subtree app
      {| Method := "PUT"; Path := "/api/tasks/" ++ seg ++ "/toggle"; Body := body |}
    = Done (JsonSuccess (ToggleTask app id).1) (ToggleTask app id).2.
Proof.
  intros Hid. split; [by apply Atoi_Itoa|]. intros seg Ha.
  by apply put_toggle_calls.
Qed.

(** X9. A DELETE of [/api/tasks/<n>] deletes exactly task [n] and reports
    whether it existed: for every [int] [n] written in decimal, and for
    every segment that [Atoi] parses to [n], the response is
    [success = (DeleteTask n).1] and the store is what [DeleteTask n]
    leaves. *)
Theorem delete_request app (id : Z) body :
  (GoInt.minInt <= id <= GoInt.maxInt)%Z ->
  Strconv.Atoi (Strconv.Itoa id) = Some id /\
  forall seg,
    Strconv.Atoi seg = Some id ->
    api_tasks_subtree app
      {| Method := "DELETE"; Path := "/api/tasks/" ++ seg; Body := body |}
    = Done (JsonSuccess (DeleteTask app id).1) (DeleteTask app id).2.
Proof.
  intros Hid. split; [by apply Atoi_Itoa|]. intros seg Ha.
  by apply delete_calls.
Qed.

(** X10. Under [/api/tasks/] the suffix alone picks the handler, and each
    handler accepts one method: a path that ends in [/toggle] answers 405 to
    everything but PUT, so a DELETE of it deletes nothing; a path that does
    not answers 405 to everything but DELETE. The store is untouched. *)
Theorem subtree_wrong_method app r :
  String.prefix "/api/tasks/" (Path r) = true ->
  (ends_with_toggle (Path r) -> Method r <> "PUT" ->
   api_tasks_subtree app r
   = Done (Error "Method not allowed" StatusMethodNotAllowed) app) /\
  (~ ends_with_toggle (Path r) -> Method r <> "DELETE" ->
   api_tasks_subtree app r
   = Done (Error "Method not allowed" StatusMethodNotAllowed) app).
Proof.
  intros Hp. destruct (choose_spec r Hp) as [Ht Hd].
  rewrite api_tasks_subtree_calls. split.
  - intros He Hm. rewrite (proj2 Ht He). unfold ToggleTaskHandler, MethodPut.
    by destruct (String.eqb_spec (Method r) "PUT").
  - intros He Hm. rewrite (proj2 Hd He). unfold DeleteTaskHandler, MethodDelete.
    by destruct (String.eqb_spec (Method r) "DELETE").
Qed.

(** X11. An ID segment that [Atoi] does not parse, an empty one, one with
    a letter, one with a [/] in it, is answered with 400 and the store is
    untouched, on the toggle route and on the delete route. In particular
    a DELETE of [/api/tasks/<n>/<anything but toggle>] is not a delete of
    task [n]. *)
Theorem unparsable_segment app seg body :
  Strconv.Atoi seg = None ->
  api_tasks_subtree app
    {| Method := "PUT"; Path := "/api/tasks/" ++ seg ++ "/toggle"; Body := body |}
  = Done (Error "Invalid task ID" StatusBadRequest) app /\
  (~ ends_with_toggle ("/api/tasks/" ++ seg) ->
   api_tasks_subtree app
     {| Method := "DELETE"; Path := "/api/tasks/" ++ seg; Body := body |}
   = Done (Error "Invalid task ID" StatusBadRequest) app) /\
  Strconv.Atoi "" = None /\
  (forall p q, Strconv.Atoi (p ++ String "/" q) = None).
Proof.
  intros Ha. split; [|split; [|split; [done | apply Atoi_slash]]].
  - set (r := {| Method := "PUT"; Path := _; Body := body |}).
    destruct (toggle_path_routed seg r eq_refl) as [_ Hc].
    rewrite api_tasks_subtree_calls, Hc. unfold r.
    rewrite (ToggleTaskHandler_segment app "/api/tasks/" seg "/toggle" body) by done.
    by rewrite Ha.
  - intros He. set (r := {| Method := "DELETE"; Path := _; Body := body |}).
    assert (Hp : String.prefix "/api/tasks/" (Path r) = true).
    { unfold r. cbn [Path]. clear. induction seg; reflexivity. }
    destruct (choose_spec r Hp) as [_ Hd].
    rewrite api_tasks_subtree_calls, (proj2 Hd He). unfold r.
    rewrite (DeleteTaskHandler_segment app "/api/tasks/" seg body) by done.
    by rewrite Ha.
Qed.

(** X12. Called on their own, as the package's tests call them, the two
    handlers trust the shape of the path. [DeleteTaskHandler] panics exactly
    on a DELETE whose path has fewer than 11 bytes, [ToggleTaskHandler]
    exactly on a PUT whose path has fewer than 18, and the routing closure
    already on any path of fewer than 7. On longer paths they cut the
    segment out by position, whatever the bytes around it are. *)
Theorem handlers_trust_path app r :
  (DeleteTaskHandler app r = Panic <->
   Method r = "DELETE" /\ (String.length (Path r) < 11)%nat) /\
  (ToggleTaskHandler app r = Panic <->
   Method r = "PUT" /\ (String.length (Path r) < 18)%nat) /\
  (choose r = None <-> (String.length (Path r) < 7)%nat) /\
  (forall pre seg suf body,
     String.length pre = 11%nat -> String.length suf = 7%nat ->
     ToggleTaskHandler app {| Method := "PUT"; Path := pre ++ seg ++ suf; Body := body |}
     = ToggleTaskHandler app
         {| Method := "PUT"; Path := "/api/tasks/" ++ seg ++ "/toggle"; Body := body |}) /\
  (forall pre seg body,
     String.length pre = 11%nat ->
     DeleteTaskHandler app {| Method := "DELETE"; Path := pre ++ seg; Body := body |}
     = DeleteTaskHandler app
         {| Method := "DELETE"; Path := "/api/tasks/" ++ seg; Body := body |}).
Proof.
  split; [|split; [|split; [|split]]].
  - unfold DeleteTaskHandler, MethodDelete.
    destruct (String.eqb_spec (Method r) "DELETE") as [Hm|Hm]; cbn [negb];
      [|split; [done | by intros [? _]]].
    unfold GoString.slice_from.
    destruct (le_lt_dec 11 (String.length (Path r))) as [Hl|Hl].
    + rewrite slice_in_range by (unfold GoString.len; cbn [String.length]; lia).
      split; [|intros [_ ?]; lia].
      destruct (Strconv.Atoi _) as [id|]; [|done]. by destruct (DeleteTask app id).
    + rewrite slice_out_of_range by (unfold GoString.len; cbn [String.length]; lia).
      done.
  - unfold ToggleTaskHandler, MethodPut.
    destruct (String.eqb_spec (Method r) "PUT") as [Hm|Hm]; cbn [negb];
      [|split; [done | by intros [? _]]].
    unfold GoString.slice_from.
    destruct (le_lt_dec 11 (String.length (Path r))) as [Hl|Hl].
    + rewrite slice_in_range by (unfold GoString.len; cbn [String.length]; lia).
      set (s1 := substring _ _ (Path r)).
      assert (H1 : String.length s1 = (String.length (Path r) - 11)%nat).
      { unfold s1. rewrite length_substring;
          unfold GoString.len; cbn [String.length]; lia. }
      unfold GoString.slice_to.
      destruct (le_lt_dec 18 (String.length (Path r))) as [Hl'|Hl'].
      * rewrite slice_in_range by (unfold GoString.len; cbn [String.length]; lia).
        split; [|intros [_ ?]; lia].
        destruct (Strconv.Atoi _) as [id|]; [|done]. by destruct (ToggleTask app id).
      * rewrite slice_out_of_range by (unfold GoString.len; cbn [String.length]; lia).
        split; [done | done].
    + rewrite slice_out_of_range by (unfold GoString.len; cbn [String.length]; lia).
      split; [intros _; split; [done | lia] | done].
  - unfold choose, GoString.slice_from.
    destruct (le_lt_dec 7 (String.length (Path r))) as [Hl|Hl].
    + rewrite slice_in_range by (unfold GoString.len; lia). split; [done | lia].
    + rewrite slice_out_of_range by (unfold GoString.len; lia). done.
  - intros pre seg suf body Hpre Hsuf.
    rewrite (ToggleTaskHandler_segment app pre seg suf body) by done.
    by rewrite (ToggleTaskHandler_segment app "/api/tasks/" seg "/toggle" body).
  - intros pre seg body Hpre.
    rewrite (DeleteTaskHandler_segment app pre seg body) by done.
    by rewrite (DeleteTaskHandler_segment app "/api/tasks/" seg body).
Qed.

End Segments.

Lemma toggle_request_witness :
  let app := exec [Create "A"; Create "B"] NewTodoApp in
  Strconv.Atoi (Strconv.Itoa 2) = Some 2 /\
  forall seg,
    Strconv.Atoi seg = Some 2 ->
    Http.api_tasks_subtree app
      {| Http.Method := "PUT"; Http.Path := "/api/tasks/" +:+ seg +:+ "/toggle";
         Http.Body := "" |}
    = Http.Done (Http.JsonSuccess (ToggleTask app 2).1) (ToggleTask app 2).2.
Proof.
  apply (toggle_request (exec [Create "A"; Create "B"] NewTodoApp) 2 "").
  vm_compute. split; discriminate.
Defined.

Lemma delete_request_witness :
  let app := exec [Create "A"; Create "B"] NewTodoApp in
  Strconv.Atoi (Strconv.Itoa 2) = Some 2 /\
  forall seg,
    Strconv.Atoi seg = Some 2 ->
    Http.api_tasks_subtree app
      {| Http.Method := "DELETE"; Http.Path := "/api/tasks/" +:+ seg; Http.Body := "" |}
    = Http.Done (Http.JsonSuccess (DeleteTask app 2).1) (DeleteTask app 2).2.
Proof.
  apply (delete_request (exec [Create "A"; Create "B"] NewTodoApp) 2 "").
  vm_compute. split; discriminate.
Defined.

Lemma subtree_wrong_method_witness :
  let app := exec [Create "A"] NewTodoApp in
  Http.api_tasks_subtree app
    {| Http.Method := "DELETE"; Http.Path := "/api/tasks/1/toggle"; Http.Body := "" |}
  = Http.Done (Http.Error "Method not allowed" Http.StatusMethodNotAllowed) app /\
  Http.api_tasks_subtree app
    {| Http.Method := "PUT"; Http.Path := "/api/tasks/1"; Http.Body := "" |}
  = Http.Done (Http.Error "Method not allowed" Http.StatusMethodNotAllowed) app.
Proof.
  intros app. split.
  - refine (proj1 (subtree_wrong_method app
             {| Http.Method := "DELETE"; Http.Path := "/api/tasks/1/toggle";
                Http.Body := "" |} eq_refl) _ _).
    + by exists "/api/tasks/1".
    + discriminate.
  - refine (proj2 (subtree_wrong_method app
             {| Http.Method := "PUT"; Http.Path := "/api/tasks/1"; Http.Body := "" |}
             eq_refl) _ _).
    + intros [p Hp]. cbn [Http.Path] in Hp.
      assert (Hl : String.length "/api/tasks/1" = String.length (p +:+ "/toggle"))
        by by rewrite <- Hp.
      rewrite length_append in Hl. cbn [String.length] in Hl.
      assert (Hp5 : String.length p = 5%nat) by lia.
      destruct p as [|c1 [|c2 [|c3 [|c4 [|c5 [|c6 p]]]]]]; discriminate.
    + discriminate.
Defined.

Lemma unparsable_segment_witness :
  let app := exec [Create "A"] NewTodoApp in
  Http.api_tasks_subtree app
    {| Http.Method := "PUT"; Http.Path := "/api/tasks/" +:+ "1/extra" +:+ "/toggle";
       Http.Body := "" |}
  = Http.Done (Http.Error "Invalid task ID" Http.StatusBadRequest) app /\
  (~ Http.ends_with_toggle ("/api/tasks/" +:+ "1/extra") ->
   Http.api_tasks_subtree app
     {| Http.Method := "DELETE"; Http.Path := "/api/tasks/" +:+ "1/extra"; Http.Body := "" |}
   = Http.Done (Http.Error "Invalid task ID" Http.StatusBadRequest) app) /\
  Strconv.Atoi "" = None /\
  (forall p q, Strconv.Atoi (p +:+ String "/" q) = None).
Proof.
  apply (unparsable_segment (exec [Create "A"] NewTodoApp) "1/extra" "").
  reflexivity.
Defined.

(** ** The store's backing array *)

Section InPlace.

Import Slices.

Variable growcap : nat -> nat -> nat.

Implicit Types (st : state) (id : Z) (h : heap) (s : slice) (xs a : list Task).

Lemma append_fits h s xs :
  (len s + length xs <= cap s)%nat ->
  (append growcap h s xs).1
  = {| arr := arr s; off := off s; len := (len s + length xs)%nat; cap := cap s |} /\
  dom (append growcap h s xs).2 = dom h.
Proof.
  intros Hfit. unfold append. rewrite decide_True by done. cbn [fst snd].
  split; [done|]. apply dom_alter_L.
Qed.

Lemma append_full h s xs a :
  points_to h s a ->
  (cap s < len s + length xs)%nat ->
  (arr (append growcap h s xs).1 ∉ dom h) /\
  (len s + length xs <= cap (append growcap h s xs).1)%nat /\
  (append growcap h s xs).2 !! arr s = Some a.
Proof.
  intros (Ha & _) Hfull. unfold append. rewrite decide_False by lia.
  cbn [fst snd arr cap].
  split; [apply is_fresh|]. split; [lia|].
  rewrite lookup_insert_ne; [done|]. intros E.
  apply (is_fresh (dom h)). rewrite E. apply elem_of_dom. eauto.
Qed.

(** X13. On the backing array, [ToggleTask] and [DeleteTask] work in place:
    the store's slice stays over the same array with the same capacity,
    nothing is allocated, and a delete only shortens the slice by one.
    [AddTask] writes into the same array while there is room and moves the
    collection to a newly allocated, larger array exactly when the slice is
    full; the old array stays in the heap as it was. *)
Theorem writers_in_place st id (title : string) :
  wf st ->
  let s := tasks (app st) in
  (tasks (app (ToggleTask st id).2) = s /\
   dom (mem (ToggleTask st id).2) = dom (mem st)) /\
  (let s' := tasks (app (DeleteTask growcap st id).2) in
   arr s' = arr s /\ off s' = off s /\ cap s' = cap s /\
   len s' = (if (DeleteTask growcap st id).1 then len s - 1 else len s)%nat /\
   dom (mem (DeleteTask growcap st id).2) = dom (mem st)) /\
  (let s' := tasks (app (AddTask growcap st title).2) in
   len s' = S (len s) /\
   ((len s < cap s)%nat ->
    arr s' = arr s /\ off s' = off s /\ cap s' = cap s /\
    dom (mem (AddTask growcap st title).2) = dom (mem st)) /\
   (len s = cap s ->
    (arr s' ∉ dom (mem st)) /\ (cap s < cap s')%nat /\
    mem (AddTask growcap st title).2 !! arr s = mem st !! arr s)).
Proof.
  intros [a Hp] s. fold s in Hp. split; [|split].
  - unfold ToggleTask. destruct (range_find id _ 0); cbn [snd app mem]; [|done].
    split; [done | apply dom_alter_L].
  - unfold DeleteTask. fold s.
    destruct (range_find id (elems (mem st) s) 0) as [i|] eqn:Hf; cbn zeta;
      [|by cbn [fst snd app mem tasks]].
    pose proof (found_in_range st id i a Hp Hf) as Hi. fold s in Hi.
    assert (Hl : length (elems (mem st) (from s (S i))) = (len s - S i)%nat).
    { rewrite (elems_from _ _ _ _ Hp) by lia.
      rewrite length_drop, (length_elems _ _ _ Hp). done. }
    destruct (append_fits (mem st) (upto s i) (elems (mem st) (from s (S i))))
      as [Hs Hd].
    { rewrite Hl. destruct Hp as (_ & _ & ?). cbn [upto len cap]. lia. }
    destruct (append growcap _ _ _) as [s' h']. cbn [fst snd app mem tasks] in *.
    subst s'. cbn [arr off len cap upto]. rewrite Hl.
    repeat split; [lia | done].
  - unfold AddTask. fold s. cbn zeta.
    set (task := {| ID := nextID (app st); Title := title; Completed := false |}).
    split; [|split].
    + unfold append. destruct (decide _); cbn; lia.
    + intros Hroom. destruct (append_fits (mem st) s [task]) as [Hs Hd];
        [cbn [length]; lia|].
      destruct (append growcap _ _ _) as [s' h']. cbn [fst snd app mem tasks] in *.
      by subst s'.
    + intros Hfull. destruct (append_full (mem st) s [task] a Hp) as (Hn & Hc & Ha);
        [cbn [length]; lia|].
      destruct (append growcap _ _ _) as [s' h']. cbn [fst snd app mem tasks] in *.
      split; [done|]. split; [cbn [length] in Hc; lia|].
      destruct Hp as (-> & _). done.
Qed.

End InPlace.

Lemma writers_in_place_witness :
  let st := Slices.example_state in
  let s := Slices.tasks (Slices.app st) in
  (Slices.tasks (Slices.app (Slices.ToggleTask st 2).2) = s /\
   dom (Slices.mem (Slices.ToggleTask st 2).2) = dom (Slices.mem st)) /\
  (let s' := Slices.tasks (Slices.app (Slices.DeleteTask Slices.double st 2).2) in
   Slices.arr s' = Slices.arr s /\ Slices.off s' = Slices.off s /\
   Slices.cap s' = Slices.cap s /\
   Slices.len s' = (if (Slices.DeleteTask Slices.double st 2).1
                    then Slices.len s - 1 else Slices.len s)%nat /\
   dom (Slices.mem (Slices.DeleteTask Slices.double st 2).2) = dom (Slices.mem st)) /\
  (let s' := Slices.tasks (Slices.app (Slices.AddTask Slices.double st "C").2) in
   Slices.len s' = S (Slices.len s) /\
   ((Slices.len s < Slices.cap s)%nat ->
    Slices.arr s' = Slices.arr s /\ Slices.off s' = Slices.off s /\
    Slices.cap s' = Slices.cap s /\
    dom (Slices.mem (Slices.AddTask Slices.double st "C").2) = dom (Slices.mem st)) /\
   (Slices.len s = Slices.cap s ->
    (Slices.arr s' ∉ dom (Slices.mem st)) /\ (Slices.cap s < Slices.cap s')%nat /\
    Slices.mem (Slices.AddTask Slices.double st "C").2 !! Slices.arr s
    = Slices.mem st !! Slices.arr s)).
Proof.
  apply (writers_in_place Slices.double Slices.example_state 2 "C").
  eexists. split; [vm_compute; reflexivity|]. split; vm_compute; lia.
Defined.

(** ** The server as a whole *)

Section ServerRuns.

Variable decodeTitle : string -> option string.

Lemma handled_is_a_run (rs : list Http.Request) (app : TodoApp) :
  exists os,
    Server.ListenAndServe decodeTitle rs app = exec os app /\
    (length os <= length rs)%nat /\ Forall Server.validated os.
Proof.
  induction rs as [|r rs IH] using rev_ind; [by exists []|].
  destruct IH as (os & He & Hl & Hv).
  unfold Server.ListenAndServe in *. rewrite foldl_snoc, He.
  set (a := exec os app).
  assert (Hstep : exists os1, Server.after a (Http.serve decodeTitle a r) = exec os1 a /\
                              (length os1 <= 1)%nat /\ Forall Server.validated os1).
  { assert (Hnone : exists os1, a = exec os1 a /\ (length os1 <= 1)%nat /\
                                  Forall Server.validated os1).
    { exists []. split; [done|]. split; [simpl; lia | constructor]. }
    destruct (Http.serve decodeTitle a r) as [resp a'|] eqn:Hs; [|exact Hnone].
    cbn [Server.after].
    destruct (serve_effect decodeTitle a r resp a' Hs)
      as [[-> _]|[(_ & _ & title & _ & Ht & _ & ->)
                 |[(_ & _ & _ & id & _ & _ & ->)|(_ & _ & _ & id & _ & _ & ->)]]].
    - exact Hnone.
    - exists [Create title]. split; [done|]. split; [done|]. by repeat constructor.
    - exists [Toggle id]. split; [done|]. split; [done|]. by repeat constructor.
    - exists [Delete id]. split; [done|]. split; [done|]. by repeat constructor. }
  destruct Hstep as (os1 & -> & Hl1 & Hv1). exists (os ++ os1).
  rewrite exec_app, !length_app. split; [done|]. split; [simpl; lia|].
  by apply Forall_app.
Qed.

Lemma creates_le_length (os : list op) : (creates os <= length os)%nat.
Proof. unfold creates. apply length_filter. Qed.

Lemma validated_titles (os : list op) (app : TodoApp) :
  Forall Server.validated os ->
  Forall (fun t => Title t <> "") (tasks app) ->
  Forall (fun t => Title t <> "") (tasks (exec os app)).
Proof.
  intros Hv. revert app. induction Hv as [|o os Ho _ IH]; intros app Hok; [done|].
  rewrite exec_cons. apply IH. destruct o as [title|id|id]; cbn [step].
  - cbn [AddTask snd tasks]. apply Forall_app. split; [done|]. by constructor.
  - unfold ToggleTask. destruct (range_find id (tasks app) 0) as [i|]; [|done].
    cbn [snd tasks]. apply Forall_alter; [done|]. by intros [? ? ?].
  - unfold DeleteTask. destruct (range_find id (tasks app) 0) as [i|]; [|done].
    cbn [snd tasks]. rewrite <- delete_take_drop.
    rewrite Forall_forall in Hok |- *. intros t Hin. apply Hok.
    eapply elem_of_sublist; [exact Hin | apply sublist_delete].
Qed.

(** X14. Whatever requests arrive, the store only ever goes through runs of
    its own methods, at most one call per request, and never a create with
    an empty title. So after any sequence of fewer than [maxInt] requests the
    live tasks have pairwise different IDs, each at least 1 and below
    [nextID], and non-empty titles. *)
Theorem served_store (rs : list Http.Request) :
  (Z.of_nat (length rs) < GoInt.maxInt)%Z ->
  let app := Server.ListenAndServe decodeTitle rs NewTodoApp in
  (exists os, app = exec os NewTodoApp /\ (length os <= length rs)%nat /\
              Forall Server.validated os) /\
  NoDup (ids app) /\
  Forall (fun t => (1 <= ID t < nextID app)%Z) (tasks app) /\
  Forall (fun t => Title t <> "") (tasks app).
Proof.
  intros Hb app. destruct (handled_is_a_run rs NewTodoApp) as (os & He & Hl & Hv).
  fold app in He. pose proof (creates_le_length os) as Hc.
  split; [by exists os|]. rewrite He.
  destruct (inv_exec os) as (_ & Hr & Hd); [lia|].
  pose proof (nextID_exec os ltac:(lia)) as Hn.
  split; [exact Hd|]. split.
  - rewrite Hn. eapply Forall_impl; [exact Hr|]. intros t Ht. simpl in Ht.
    clear -Ht. lia.
  - by apply validated_titles.
Qed.

End ServerRuns.

Lemma served_store_witness :
  let rs := [ {| Http.Method := "POST"; Http.Path := "/api/tasks"; Http.Body := "A" |};
              {| Http.Method := "POST"; Http.Path := "/api/tasks"; Http.Body := "" |};
              {| Http.Method := "PUT"; Http.Path := "/api/tasks/toggle"; Http.Body := "" |};
              {| Http.Method := "PUT"; Http.Path := "/api/tasks/1/toggle"; Http.Body := "" |} ] in
  let app := Server.ListenAndServe Some rs NewTodoApp in
  (exists os, app = exec os NewTodoApp /\ (length os <= length rs)%nat /\
              Forall Server.validated os) /\
  NoDup (ids app) /\
  Forall (fun t => (1 <= ID t < nextID app)%Z) (tasks app) /\
  Forall (fun t => Title t <> "") (tasks app).
Proof.
  apply (served_store Some
    [ {| Http.Method := "POST"; Http.Path := "/api/tasks"; Http.Body := "A" |};
      {| Http.Method := "POST"; Http.Path := "/api/tasks"; Http.Body := "" |};
      {| Http.Method := "PUT"; Http.Path := "/api/tasks/toggle"; Http.Body := "" |};
      {| Http.Method := "PUT"; Http.Path := "/api/tasks/1/toggle"; Http.Body := "" |} ]).
  vm_compute. reflexivity.
Defined.

(** ** A created task is reachable by the ID in the response *)

Section CreatedID.

Import Http.
Local Open Scope string_scope.
Local Arguments String.append !_ _ / : simpl nomatch.

Variable decodeTitle : string -> option string.

Implicit Types (app : TodoApp) (r : Request) (seg : string).

Lemma api_tasks_created app r t app1 :
  api_tasks decodeTitle app r = Done (JsonCreated t) app1 ->
  exists title, t = (AddTask app title).1 /\ app1 = (AddTask app title).2.
Proof.
  unfold api_tasks. destruct (Method r =? MethodGet).
  { intros [_ [Hn _]]%GetTasksHandler_effect. by destruct (Hn t). }
  destruct (Method r =? MethodPost); [|discriminate].
  intros [[_ [Hn _]]|(_ & title & _ & _ & Ht & Ha)]%AddTaskHandler_effect.
  - by destruct (Hn t).
  - exists title. split; [congruence | done].
Qed.

Lemma ToggleTask_last l t next :
  (ID t ∉ ID <$> l) ->
  ToggleTask {| tasks := l ++ [t]; nextID := next |} (ID t)
  = (true, {| tasks := l ++ [flip t]; nextID := next |}).
Proof.
  intros Hn. unfold ToggleTask. cbn [tasks nextID].
  rewrite (range_find_app (ID t) l t [] 0) by (by apply absent_none_match || done).
  cbn [Nat.add]. by rewrite alter_middle.
Qed.

Lemma DeleteTask_last l t next :
  (ID t ∉ ID <$> l) ->
  DeleteTask {| tasks := l ++ [t]; nextID := next |} (ID t)
  = (true, {| tasks := l; nextID := next |}).
Proof.
  intros Hn. unfold DeleteTask. cbn [tasks nextID].
  rewrite (range_find_app (ID t) l t [] 0) by (by apply absent_none_match || done).
  cbn [Nat.add]. rewrite take_app_length.
  rewrite drop_ge by (rewrite length_app; simpl; lia). by rewrite app_nil_r.
Qed.

(** X15. The ID in the response to a create addresses the new task. When
    [nextID] is not the ID of a live task, and the create at [/api/tasks]
    answers with task [t], then in the store it leaves: the PUT at
    [/api/tasks/<ID t>/toggle] (the ID in decimal) reports success and flips
    [t], the last task, and nothing else; the DELETE at [/api/tasks/<ID t>]
    reports success and leaves the list of tasks as it was before the
    create. Neither gives the ID back: [nextID] stays as the create left
    it. *)
Theorem created_id_addresses_task app r t app1 body :
  (nextID app ∉ ids app) ->
  (GoInt.minInt <= nextID app <= GoInt.maxInt)%Z ->
  api_tasks decodeTitle app r = Done (JsonCreated t) app1 ->
  ID t = nextID app /\ Completed t = false /\ tasks app1 = (tasks app ++ [t])%list /\
  api_tasks_subtree app1
    {| Method := "PUT"; Path := "/api/tasks/" ++ Strconv.Itoa (ID t) ++ "/toggle";
       Body := body |}
  = Done (JsonSuccess true)
      {| tasks := (tasks app ++ [flip t])%list; nextID := nextID app1 |} /\
  api_tasks_subtree app1
    {| Method := "DELETE"; Path := "/api/tasks/" ++ Strconv.Itoa (ID t); Body := body |}
  = Done (JsonSuccess true) {| tasks := tasks app; nextID := nextID app1 |}.
Proof.
  intros Hfresh Hrange [title [-> ->]]%api_tasks_created.
  cbn [AddTask fst snd ID Completed tasks nextID].
  split; [done|]. split; [done|]. split; [done|].
  pose proof (Atoi_Itoa (nextID app) Hrange) as Ha.
  set (t := {| ID := nextID app; Title := title; Completed := false |}).
  change (nextID app) with (ID t) in Ha, Hfresh |- * at 1.
  split.
  - rewrite (put_toggle_calls _ _ _ body Ha).
    by rewrite (ToggleTask_last (tasks app) t _ Hfresh).
  - rewrite (delete_calls _ _ _ body Ha).
    by rewrite (DeleteTask_last (tasks app) t _ Hfresh).
Qed.

End CreatedID.

Lemma created_id_addresses_task_witness :
  let app := exec [Create "A"; Create "B"; Delete 1] NewTodoApp in
  let t := {| ID := 3; Title := "C"; Completed := false |} in
  let app1 := {| tasks := tasks app ++ [t]; nextID := 4 |} in
  ID t = nextID app /\ Completed t = false /\ tasks app1 = tasks app ++ [t] /\
  Http.api_tasks_subtree app1
    {| Http.Method := "PUT";
       Http.Path := "/api/tasks/" +:+ Strconv.Itoa (ID t) +:+ "/toggle";
       Http.Body := "" |}
  = Http.Done (Http.JsonSuccess true)
      {| tasks := tasks app ++ [flip t]; nextID := nextID app1 |} /\
  Http.api_tasks_subtree app1
    {| Http.Method := "DELETE"; Http.Path := "/api/tasks/" +:+ Strconv.Itoa (ID t);
       Http.Body := "" |}
  = Http.Done (Http.JsonSuccess true) {| tasks := tasks app; nextID := nextID app1 |}.
Proof.
  apply (created_id_addresses_task Some
           (exec [Create "A"; Create "B"; Delete 1] NewTodoApp)
           {| Http.Method := "POST"; Http.Path := "/api/tasks"; Http.Body := "C" |}
           {| ID := 3; Title := "C"; Completed := false |}
           {| tasks := [ {| ID := 2; Title := "B"; Completed := false |};
                         {| ID := 3; Title := "C"; Completed := false |} ];
              nextID := 4 |} "").
  - compute_done.
  - vm_compute. split; discriminate.
  - reflexivity.
Defined.
